(** * Content-addressable file writer (package contentaddressable)

    A shallow embedding of [file.go]: the [File] writer that streams data to
    a staging file, hashes it with SHA-256 as it goes and, on [Accept],
    renames the staging file to its content-addressed destination.

    The development has three layers:
    - [Sha256]: the streaming digest the writer owns ([crypto/sha256]);
    - [OS]: the file-system calls the writer makes ([os], [path/filepath]),
      over an explicit world with a schedule of injected failures;
    - [CA]: the writer itself, method by method.

    Definitions come first; the facts about the digest, the system calls
    and the writer follow, then the test suite run on the model, then the
    claims C1 to C10 about the writer. *)

From Stdlib Require Import ZArith Lia.
From Stdlib Require Import Strings.Byte Strings.Ascii Strings.String.
From stdpp Require Import gmap strings list fin_maps.

Local Open Scope Z_scope.

(* ===================================================================== *)
(** ** SHA-256, as the streaming [digest] object of [crypto/sha256]      *)
(* ===================================================================== *)

Module Sha256.

(** [uint32] arithmetic: values live in [0, 2^32) and wrap around. *)
Definition u32 (x : Z) : Z := x mod 2 ^ 32.
Definition add32 (x y : Z) : Z := u32 (x + y).
Definition not32 (x : Z) : Z := Z.lxor x 0xFFFFFFFF.

(** [bits.RotateLeft32 x (-k)]: rotation to the right by [k] bits. *)
Definition rotr (k x : Z) : Z :=
  Z.lor (Z.shiftr x k) (u32 (Z.shiftl x (32 - k))).

Definition chunk : nat := 64.

Definition init : list Z :=
  0x6A09E667 :: 0xBB67AE85 :: 0x3C6EF372 :: 0xA54FF53A ::
  0x510E527F :: 0x9B05688C :: 0x1F83D9AB :: 0x5BE0CD19 :: nil.

Definition _K : list Z :=
  0x428a2f98 :: 0x71374491 :: 0xb5c0fbcf :: 0xe9b5dba5 ::
  0x3956c25b :: 0x59f111f1 :: 0x923f82a4 :: 0xab1c5ed5 ::
  0xd807aa98 :: 0x12835b01 :: 0x243185be :: 0x550c7dc3 ::
  0x72be5d74 :: 0x80deb1fe :: 0x9bdc06a7 :: 0xc19bf174 ::
  0xe49b69c1 :: 0xefbe4786 :: 0x0fc19dc6 :: 0x240ca1cc ::
  0x2de92c6f :: 0x4a7484aa :: 0x5cb0a9dc :: 0x76f988da ::
  0x983e5152 :: 0xa831c66d :: 0xb00327c8 :: 0xbf597fc7 ::
  0xc6e00bf3 :: 0xd5a79147 :: 0x06ca6351 :: 0x14292967 ::
  0x27b70a85 :: 0x2e1b2138 :: 0x4d2c6dfc :: 0x53380d13 ::
  0x650a7354 :: 0x766a0abb :: 0x81c2c92e :: 0x92722c85 ::
  0xa2bfe8a1 :: 0xa81a664b :: 0xc24b8b70 :: 0xc76c51a3 ::
  0xd192e819 :: 0xd6990624 :: 0xf40e3585 :: 0x106aa070 ::
  0x19a4c116 :: 0x1e376c08 :: 0x2748774c :: 0x34b0bcb5 ::
  0x391c0cb3 :: 0x4ed8aa4a :: 0x5b9cca4f :: 0x682e6ff3 ::
  0x748f82ee :: 0x78a5636f :: 0x84c87814 :: 0x8cc70208 ::
  0x90befffa :: 0xa4506ceb :: 0xbef9a3f7 :: 0xc67178f2 :: nil.

Definition byteZ (b : byte) : Z := Z.of_N (Byte.to_N b).

Definition Zbyte (z : Z) : byte :=
  match Byte.of_N (Z.to_N (z mod 256)) with
  | Some b => b
  | None => x00
  end.

(** [binary.BigEndian.PutUint32] and [PutUint64]. *)
Definition be32 (v : Z) : list byte :=
  [Zbyte (Z.shiftr v 24); Zbyte (Z.shiftr v 16); Zbyte (Z.shiftr v 8); Zbyte v].

Definition be64 (v : Z) : list byte :=
  be32 (Z.shiftr v 32) ++ be32 v.

(** The big-endian word at offset [4*i] of a block. *)
Definition word_at (p : list byte) (i : nat) : Z :=
  let j := (4 * i)%nat in
  let b k := byteZ (nth (j + k) p x00) in
  Z.lor (Z.lor (Z.lor (Z.shiftl (b 0%nat) 24) (Z.shiftl (b 1%nat) 16))
               (Z.shiftl (b 2%nat) 8))
        (b 3%nat).

(** The message schedule: [w[0..15]] are read from the block and
    [w[16..63]] are derived, each from four earlier words. *)
Definition extend (w : list Z) : list Z :=
  let i := length w in
  let v1 := nth (i - 2) w 0 in
  let t1 := Z.lxor (Z.lxor (rotr 17 v1) (rotr 19 v1)) (Z.shiftr v1 10) in
  let v2 := nth (i - 15) w 0 in
  let t2 := Z.lxor (Z.lxor (rotr 7 v2) (rotr 18 v2)) (Z.shiftr v2 3) in
  w ++ [add32 (add32 (add32 t1 (nth (i - 7) w 0)) t2) (nth (i - 16) w 0)].

Definition schedule (p : list byte) : list Z :=
  Nat.iter 48 extend (map (word_at p) (seq 0 16)).

(** The eight working variables [a..h] of a round. *)
Definition regs : Type := (Z * Z * Z * Z * Z * Z * Z * Z)%type.

Definition round (r : regs) (kw : Z * Z) : regs :=
  let '(a, b, c, d, e, f, g, h) := r in
  let t1 :=
    add32 (add32 (add32 (add32 h
      (Z.lxor (Z.lxor (rotr 6 e) (rotr 11 e)) (rotr 25 e)))
      (Z.lxor (Z.land e f) (Z.land (not32 e) g)))
      (fst kw)) (snd kw) in
  let t2 :=
    add32 (Z.lxor (Z.lxor (rotr 2 a) (rotr 13 a)) (rotr 22 a))
          (Z.lxor (Z.lxor (Z.land a b) (Z.land a c)) (Z.land b c)) in
  (add32 t1 t2, a, b, c, add32 d t1, e, f, g).

Definition regs_of (h : list Z) : regs :=
  (nth 0 h 0, nth 1 h 0, nth 2 h 0, nth 3 h 0,
   nth 4 h 0, nth 5 h 0, nth 6 h 0, nth 7 h 0).

Definition list_of (r : regs) : list Z :=
  let '(a, b, c, d, e, f, g, h) := r in [a; b; c; d; e; f; g; h].

(** One iteration of the loop of [blockGeneric]: the chaining value after
    the 64-byte block [p]. *)
Definition compress (h : list Z) (p : list byte) : list Z :=
  let r := fold_left round (combine _K (schedule p)) (regs_of h) in
  map (fun xy => add32 (fst xy) (snd xy)) (combine h (list_of r)).

(** [blockGeneric]: [for len(p) >= chunk { ...; p = p[chunk:] }].  The loop
    runs at most [len(p)] times, which is the fuel [block] gives it. *)
Fixpoint block_loop (fuel : nat) (h : list Z) (p : list byte) : list Z :=
  match fuel with
  | O => h
  | S fuel' =>
      if (chunk <=? length p)%nat
      then block_loop fuel' (compress h (take chunk p)) (drop chunk p)
      else h
  end.

Definition block (h : list Z) (p : list byte) : list Z :=
  block_loop (length p) h p.

(** The [digest] struct.  The Go field [x [64]byte] with its fill count
    [nx] is kept as the list [x[:nx]] of buffered bytes; [len] is a
    [uint64]. *)
Record digest : Type := Digest {
  h : list Z;
  x : list byte;
  len : Z
}.

Definition nx (d : digest) : nat := length (x d).

(** [sha256.New()]. *)
Definition New : digest := {| h := init; x := []; len := 0 |}.

(** [digest.Write]; it never fails, and always consumes all of [p]. *)
Definition Write (d : digest) (p : list byte) : digest :=
  let len' := (len d + Z.of_nat (length p)) mod 2 ^ 64 in
  (* if d.nx > 0 { n := copy(d.x[d.nx:], p); ... } *)
  let '(h1, x1, p1) :=
    if (0 <? nx d)%nat then
      let n := Nat.min (chunk - nx d) (length p) in
      let xs := x d ++ take n p in
      if (length xs =? chunk)%nat
      then (block (h d) xs, [], drop n p)
      else (h d, xs, drop n p)
    else (h d, x d, p) in
  (* if len(p) >= chunk { n := len(p) &^ (chunk - 1); ... } *)
  let '(h2, p2) :=
    if (chunk <=? length p1)%nat then
      let n := (length p1 - length p1 mod chunk)%nat in
      (block h1 (take n p1), drop n p1)
    else (h1, p1) in
  (* if len(p) > 0 { d.nx = copy(d.x[:], p) } *)
  let x3 := if (0 <? length p2)%nat then p2 else x1 in
  {| h := h2; x := x3; len := len' |}.

(** [checkSum]: pad to 56 bytes modulo 64, append the bit length, and
    read the chaining value out big-endian. *)
Definition checkSum (d : digest) : list byte :=
  let l := len d in
  let pad := if l mod 64 <? 56 then 56 - l mod 64 else 64 + 56 - l mod 64 in
  let d1 := Write d (x80 :: repeat x00 (Z.to_nat pad - 1)) in
  let d2 := Write d1 (be64 ((l * 8) mod 2 ^ 64)) in
  concat (map be32 (h d2)).

(** [digest.Sum(nil)]: works on a copy, the receiver is unchanged. *)
Definition Sum (d : digest) : list byte := checkSum d.

(** The digest of a whole message, [sha256.Sum256]. *)
Definition Sum256 (data : list byte) : list byte := Sum (Write New data).

(** The part of [p] made of whole blocks, and what is left over. *)
Definition whole (p : list byte) : nat := (length p - length p mod chunk)%nat.

(** A well-formed digest buffers less than one block. *)
Definition wf (d : digest) : Prop := (nx d < chunk)%nat.

End Sha256.

(** [hex.EncodeToString]. *)
Module Hex.

Definition hextable : list ascii :=
  list_ascii_of_string "0123456789abcdef".

Definition digit (n : Z) : ascii := nth (Z.to_nat n) hextable "0"%char.

Fixpoint EncodeToString (src : list byte) : string :=
  match src with
  | [] => EmptyString
  | v :: rest =>
      String (digit (Z.shiftr (Sha256.byteZ v) 4))
        (String (digit (Z.land (Sha256.byteZ v) 0x0f)) (EncodeToString rest))
  end.

End Hex.

(** [[]byte(s)] for a Go string [s]. *)
Definition bytes_of (s : string) : list byte := list_byte_of_string s.

(** The identifier a content has: [hex(sha256(data))]. *)
Definition sha256hex (data : list byte) : string :=
Hex.EncodeToString (Sha256.Sum256 data).


(* ===================================================================== *)
(** ** The operating system: [os] and [path/filepath]                     *)
(* ===================================================================== *)

(** Go's [error] values, as far as this package meets them.  A Go [nil]
    error is [None]. *)
Inductive oserr : Type :=
| ENOENT | EEXIST | EACCES | ENOSPC | EIO | EXDEV | EROFS
| ErrClosed          (* os.ErrClosed, "file already closed" *)
| ErrShortWrite.     (* io.ErrShortWrite *)

Inductive error : Type :=
| AlreadyClosed                 (* errors.New("Already closed.") *)
| HasData                       (* errors.New("Destination file already has data.") *)
| Errorf (msg : string)         (* fmt.Errorf(...) *)
| Sys (e : oserr).              (* an error of the os package *)

Definition DefaultSuffix : string := "-temp".

Module OS.

(** *** Paths *)

Definition Separator : ascii := "/"%char.

Definition IsPathSeparator (c : ascii) : bool := Ascii.eqb c Separator.

Fixpoint drop_seps (l : list ascii) : list ascii :=
  match l with
  | c :: l' => if IsPathSeparator c then drop_seps l' else l
  | [] => []
  end.

Fixpoint until_sep (l : list ascii) : list ascii :=
  match l with
  | c :: l' => if IsPathSeparator c then [] else c :: until_sep l'
  | [] => []
  end.

Fixpoint after_sep (l : list ascii) : list ascii :=
  match l with
  | c :: l' => if IsPathSeparator c then l else after_sep l'
  | [] => []
  end.

(** [filepath.Base]: the last element of the path, trailing separators
    removed; ["."] for the empty path and ["/"] for a path of separators
    only.  The two backward scans of the Go code run here on the reversed
    path. *)
Definition Base (path : string) : string :=
  if String.eqb path "" then "."
  else
    let stripped := drop_seps (rev (list_ascii_of_string path)) in
    let last := string_of_list_ascii (rev (until_sep stripped)) in
    if String.eqb last "" then "/" else last.

(** [filepath.Clean], by path elements: empty and ["."] elements are
    dropped, a [".."] cancels the element before it, at the root it is
    dropped, and the empty result is ["."]. *)
Fixpoint split_path (fuel : nat) (l : list ascii) : list (list ascii) :=
  match fuel with
  | O => []
  | S fuel' =>
      match l with
      | [] => []
      | _ => until_sep l ::
               match after_sep l with
               | [] => []
               | _ :: rest => split_path fuel' rest
               end
      end
  end.

Definition dotdot : list ascii := [("."%char) ; ("."%char)].

Definition clean_step (rooted : bool) (stack : list (list ascii))
    (elem : list ascii) : list (list ascii) :=
  match elem with
  | [] => stack
  | [c] => if Ascii.eqb c "." then stack else elem :: stack
  | _ =>
      if bool_decide (elem = dotdot) then
        match stack with
        | top :: below =>
            if bool_decide (top = dotdot) then elem :: stack else below
        | [] => if rooted then stack else [elem]
        end
      else elem :: stack
  end.

Fixpoint join_path (elems : list (list ascii)) : list ascii :=
  match elems with
  | [] => []
  | [e] => e
  | e :: rest => e ++ Separator :: join_path rest
  end.

Definition Clean (path : string) : string :=
  let l := list_ascii_of_string path in
  let rooted := match l with c :: _ => IsPathSeparator c | [] => false end in
  let stack := fold_left (clean_step rooted) (split_path (S (length l)) l) [] in
  let body := join_path (rev stack) in
  let out := if rooted then Separator :: body else body in
  match out with
  | [] => "."
  | _ => string_of_list_ascii out
  end.

(** [filepath.Dir]: everything up to the last separator, cleaned. *)
Definition Dir (path : string) : string :=
  Clean (string_of_list_ascii
           (rev (after_sep (rev (list_ascii_of_string path))))).

(** Does the path end in a separator?  Such a path names a directory,
    never a regular file. *)
Definition ends_with_separator (path : string) : bool :=
  match rev (list_ascii_of_string path) with
  | c :: _ => IsPathSeparator c
  | [] => false
  end.

(** [starts_with pre s]: [pre] is a prefix of [s]. *)
Fixpoint starts_with (pre s : string) : bool :=
  match pre, s with
  | EmptyString, _ => true
  | String a pre', String b s' => Ascii.eqb a b && starts_with pre' s'
  | String _ _, EmptyString => false
  end.

(** [below dir path]: [path] lies inside the directory [dir]. *)
Definition below (dir path : string) : bool :=
  starts_with (dir +:+ "/") path.

(** *** The world

    The name space maps a path to the inode of the regular file there; the
    store holds each inode's bytes.  An open file is bound to its inode,
    not to its name.  Paths are names as they are written: two paths are
    the same name when they are the same string.

    Directories are not part of the world, which records regular files
    only, and the calls are read accordingly.  [Stat] and [OpenFile] look
    for a regular file at the path.  [RemoveAll] of a path that is no
    regular file removes every name below it.  [MkdirAll], which creates
    directories and nothing else, changes no name.  A failure for want of
    a directory (a missing parent) or because of one (a directory in the
    way of a file) is, like every other failure of the environment, a
    matter of the schedule: [faults] is the schedule of injected failures,
    the i-th call that reaches the operating system takes the i-th
    directive, and a call behaves normally once the schedule is exhausted.

    The world thus stands for the file systems in which the paths the
    writer uses as files, its destination and its staging path, are not
    directories.  The writer breaks this itself in one case: for a
    destination that ends in a separator, [Dir] is the destination
    itself, so the directory [MkdirAll] creates is the destination, and
    the [Stat] of [Accept] finds it.  The theorems on whole sessions that
    depend on the destination being absent therefore ask for a destination
    that does not end in a separator. *)

Definition ino : Type := nat.

Record fault : Type := Fault {
  ferr : oserr;      (* the error the call fails with *)
  fcount : nat       (* for a write: how many bytes it still accepts *)
}.

Record World : Type := mkWorld {
  names : gmap string ino;
  store : gmap ino (list byte);
  faults : list (option fault)
}.

(** [*os.File]: the object behind the pointer.  [Close] marks it closed
    whatever the outcome of the underlying call. *)
Record OsFile : Type := mkOsFile {
  name : string;
  inode : ino;
  closed : bool
}.

(** What a call did at the boundary: the system call and its error. *)
Inductive event : Type :=
  | EvMkdirAll (path : string) (err : option error)
  | EvOpenFile (path : string) (err : option error)
  | EvWrite (path : string) (n : nat) (err : option error)
  | EvClose (path : string) (err : option error)
  | EvStat (path : string) (err : option error)
  | EvRename (oldpath newpath : string) (err : option error)
  | EvRemoveAll (path : string) (err : option error).

Definition ev_err (ev : event) : option error :=
  match ev with
  | EvMkdirAll _ e | EvOpenFile _ e | EvWrite _ _ e | EvClose _ e
  | EvStat _ e | EvRename _ _ e | EvRemoveAll _ e => e
  end.

(** Computations over the world that log their system calls, in order. *)
Definition M (A : Type) : Type := World -> A * World * list event.

#[export] Instance M_ret : MRet M := fun A a σ => (a, σ, []).

#[export] Instance M_bind : MBind M := fun A B k m σ =>
  let '(a, σ1, evs1) := m σ in
  let '(b, σ2, evs2) := k a σ1 in
  (b, σ2, evs1 ++ evs2).

Definition emit (ev : event) : M unit := fun σ => (tt, σ, [ev]).
Definition get : M World := fun σ => (σ, σ, []).
Definition put (σ' : World) : M unit := fun _ => (tt, σ', []).

(** Takes the next directive off the schedule. *)
Definition next_fault : M (option fault) := fun σ =>
  match faults σ with
  | [] => (None, σ, [])
  | d :: rest => (d, mkWorld (names σ) (store σ) rest, [])
  end.

Definition set_names (f : gmap string ino -> gmap string ino) : M unit :=
  fun σ => (tt, mkWorld (f (names σ)) (store σ) (faults σ), []).

Definition set_store (f : gmap ino (list byte) -> gmap ino (list byte)) : M unit :=
  fun σ => (tt, mkWorld (names σ) (f (store σ)) (faults σ), []).

Definition failing (d : option fault) : option error :=
  match d with
  | Some ft => Some (Sys (ferr ft))
  | None => None
  end.

(** [os.MkdirAll(path, 0755)]: creates the directory [path] and the
    missing ones above it.  Directories are not part of the world, so the
    call changes no name and no file; it fails when the schedule says so
    (a regular file in the way, a permission). *)
Definition MkdirAll (path : string) : M (option error) :=
  d ← next_fault;
  emit (EvMkdirAll path (failing d));;
  mret (failing d).

(** [os.OpenFile(name, os.O_WRONLY|os.O_CREATE|os.O_EXCL, 0644)]: creates
    a new, empty file; fails with [EEXIST] if the name is taken.  Its other
    failures, a missing parent directory among them, are failures of the
    environment and come from the schedule. *)
Definition OpenFile (path : string) : M (option OsFile * option error) :=
  d ← next_fault;
  σ ← get;
  match d with
  | Some ft =>
      emit (EvOpenFile path (Some (Sys (ferr ft))));;
      mret (None, Some (Sys (ferr ft)))
  | None =>
      match names σ !! path with
      | Some _ =>
          emit (EvOpenFile path (Some (Sys EEXIST)));;
          mret (None, Some (Sys EEXIST))
      | None =>
          let i := fresh (dom (store σ)) in
          set_names (insert path i);;
          set_store (insert i []);;
          emit (EvOpenFile path None);;
          mret (Some (mkOsFile path i false), None)
      end
  end.

(** [(f *os.File).Write(p)]: appends to the file's inode.  A failing
    write may still have accepted a prefix of [p]; a write on a closed
    file never reaches the operating system. *)
Definition file_Write (f : OsFile) (p : list byte) : M (nat * option error) :=
  if closed f then
    emit (EvWrite (name f) 0 (Some (Sys ErrClosed)));;
    mret (0%nat, Some (Sys ErrClosed))
  else
    d ← next_fault;
    match d with
    | Some ft =>
        let n := Nat.min (fcount ft) (length p) in
        set_store (alter (fun old => old ++ take n p) (inode f));;
        emit (EvWrite (name f) n (Some (Sys (ferr ft))));;
        mret (n, Some (Sys (ferr ft)))
    | None =>
        set_store (alter (fun old => old ++ p) (inode f));;
        emit (EvWrite (name f) (length p) None);;
        mret (length p, None)
    end.

(** [(f *os.File).Close()]: afterwards the file is closed in any case. *)
Definition file_Close (f : OsFile) : M (OsFile * option error) :=
  let f' := mkOsFile (name f) (inode f) true in
  if closed f then
    emit (EvClose (name f) (Some (Sys ErrClosed)));;
    mret (f', Some (Sys ErrClosed))
  else
    d ← next_fault;
    emit (EvClose (name f) (failing d));;
    mret (f', failing d).

(** [os.Stat(name)], of which the writer looks at the error only. *)
Definition Stat (path : string) : M (option error) :=
  d ← next_fault;
  σ ← get;
  let err :=
    match d with
    | Some ft => Some (Sys (ferr ft))
    | None =>
        match names σ !! path with
        | Some _ => None
        | None => Some (Sys ENOENT)
        end
    end in
  emit (EvStat path err);;
  mret err.

(** [os.Rename(oldpath, newpath)]: atomically rebinds the new name to the
    old name's file, replacing a file already there. *)
Definition Rename (oldpath newpath : string) : M (option error) :=
  d ← next_fault;
  σ ← get;
  match d with
  | Some ft =>
      emit (EvRename oldpath newpath (Some (Sys (ferr ft))));;
      mret (Some (Sys (ferr ft)))
  | None =>
      match names σ !! oldpath with
      | None =>
          emit (EvRename oldpath newpath (Some (Sys ENOENT)));;
          mret (Some (Sys ENOENT))
      | Some i =>
          set_names (fun m => <[newpath := i]> (delete oldpath m));;
          emit (EvRename oldpath newpath None);;
          mret None
      end
  end.

(** The names left when [path] and everything it contains is removed: a
    regular file is unlinked; otherwise the path is a directory, if
    anything, and every name below it goes. *)
Definition removed (path : string) (nm : gmap string ino) : gmap string ino :=
  match nm !! path with
  | Some _ => delete path nm
  | None => filter (fun kv => below path kv.1 = false) nm
  end.

(** [os.RemoveAll(path)]: removes the path and any children it contains; a
    missing path is no error.  A removal that fails is taken to have
    removed nothing, as is the case for a regular file. *)
Definition RemoveAll (path : string) : M (option error) :=
  d ← next_fault;
  match d with
  | Some ft =>
      emit (EvRemoveAll path (Some (Sys (ferr ft))));;
      mret (Some (Sys (ferr ft)))
  | None =>
      set_names (removed path);;
      emit (EvRemoveAll path None);;
      mret None
  end.

(** The directive the next call will take, and the world once it is
    taken. *)
Definition directive (σ : World) : option fault := hd None (faults σ).

Definition pop (σ : World) : World :=
  mkWorld (names σ) (store σ) (tail (faults σ)).

(** The three parts of a finished computation. *)
Definition ret_of {A : Type} (r : A * World * list event) : A := r.1.1.
Definition world_of {A : Type} (r : A * World * list event) : World := r.1.2.
Definition events_of {A : Type} (r : A * World * list event) : list event := r.2.

Definition is_rename (ev : event) : bool :=
  match ev with
  | EvRename _ _ _ => true
  | _ => false
  end.

(** Did the computation call [os.Rename]? *)
Definition renames (evs : list event) : bool := existsb is_rename evs.

(** *** Outcomes in closed form

    The error each call returns in a given world, read off the schedule
    and the name space; the lemmas [Stat_eq], [Rename_eq], ... below show
    that the calls return exactly these. *)

(** The error of a [Stat]: the scheduled failure if there is one,
    otherwise whether the name is bound. *)
Definition stat_err (path : string) (σ : World) : option error :=
  match directive σ with
  | Some ft => Some (Sys (ferr ft))
  | None =>
      match names σ !! path with
      | Some _ => None
      | None => Some (Sys ENOENT)
      end
  end.

Definition close_err (f : OsFile) (σ : World) : option error :=
  if closed f then Some (Sys ErrClosed) else failing (directive σ).

Definition rename_err (oldpath : string) (σ : World) : option error :=
  match directive σ with
  | Some ft => Some (Sys (ferr ft))
  | None =>
      match names σ !! oldpath with
      | Some _ => None
      | None => Some (Sys ENOENT)
      end
  end.

(** How many bytes of [p] a write on the open file accepts. *)
Definition accepted (p : list byte) (σ : World) : nat :=
  match directive σ with
  | Some ft => Nat.min (fcount ft) (length p)
  | None => length p
  end.

(** [ioutil.ReadFile], as an observation of the world. *)
Definition read_file (σ : World) (path : string) : option (list byte) :=
  i ← names σ !! path; store σ !! i.

End OS.

(* ===================================================================== *)
(** ** The writer: [file.go]                                              *)
(* ===================================================================== *)

Module CA.
Import OS.

(** [type File struct].  The Go methods have a pointer receiver and
    update the struct in place; here each method returns the updated
    struct next to its results. *)
Record File : Type := mkFile {
  Oid : string;
  filename : string;
  tempFilename : string;
  tempFile : option OsFile;     (* nil once closed *)
  hasher : Sha256.digest
}.

Definition set_tempFile (w : File) (t : option OsFile) : File :=
  mkFile (Oid w) (filename w) (tempFilename w) t (hasher w).

Definition set_hasher (w : File) (d : Sha256.digest) : File :=
  mkFile (Oid w) (filename w) (tempFilename w) (tempFile w) d.

(** [NewWithSuffix] (file.go:39-61); it returns [(nil, err)] when the
    directory or the staging file cannot be created.  The permission
    arguments [0755] and [0644] have no counterpart in the world. *)
Definition NewWithSuffix (filename suffix : string)
    : M (option File * option error) :=
  let oid := Base filename in
  let dir := Dir filename in
  err ← MkdirAll dir;
  match err with
  | Some e => mret (None, Some e)
  | None =>
      let tempFilename := filename +:+ suffix in
      '(tempFile, err) ← OpenFile tempFilename;
      match err with
      | Some e => mret (None, Some e)
      | None =>
          mret (Some (mkFile oid filename tempFilename tempFile Sha256.New),
                None)
      end
  end.

(** [NewFile] (file.go:31-33). *)
Definition NewFile (filename : string) : M (option File * option error) :=
  NewWithSuffix filename DefaultSuffix.

(** [Closed] (file.go:114-119): [w.tempFile == nil]. *)
Definition Closed (w : File) : bool :=
  match tempFile w with
  | None => true
  | Some _ => false
  end.

(** [Write] (file.go:64-71).  The [None] case is [if w.Closed()]; on an
    open writer the digest is fed first, then the file is written, and the
    results of the file write are returned as they are. *)
Definition Write (w : File) (p : list byte) : M (File * (nat * option error)) :=
  match tempFile w with
  | None => mret (w, (0%nat, Some AlreadyClosed))
  | Some f =>
      let w := set_hasher w (Sha256.Write (hasher w) p) in
      r ← file_Write f p;
      mret (w, r)
  end.

(** [cleanupFile] (file.go:121-128): the inner [err] of the removal
    shadows the [err] of the close. *)
Definition cleanupFile (f : OsFile) : M (OsFile * option error) :=
  '(f', err) ← file_Close f;
  err' ← RemoveAll (name f);
  match err' with
  | Some e => mret (f', Some e)
  | None => mret (f', err)
  end.

(** [Close] (file.go:102-111): [w.tempFile] becomes nil only after a
    cleanup without error; the [os.File] it points to has been closed by
    [cleanupFile] in any case. *)
Definition Close (w : File) : M (File * option error) :=
  match tempFile w with
  | Some f =>
      '(f', err) ← cleanupFile f;
      match err with
      | Some e => mret (set_tempFile w (Some f'), Some e)
      | None => mret (set_tempFile w None, None)
      end
  | None => mret (w, None)
  end.

(** The signature [Accept] computes:
    [hex.EncodeToString(w.hasher.Sum(nil))]. *)
Definition sig (w : File) : string :=
  Hex.EncodeToString (Sha256.Sum (hasher w)).

Definition mismatch (oid sig : string) : error :=
  Errorf ("Content mismatch.  Expected OID " +:+ oid +:+ ", got " +:+ sig).

(** [Accept] (file.go:78-99).  The [None] case is [if w.Closed()].  On
    the rename branch the result of [w.tempFile.Close()] is not looked
    at. *)
Definition Accept (w : File) : M (File * (bool * option error)) :=
  match tempFile w with
  | None => mret (w, (false, Some AlreadyClosed))
  | Some f =>
      if negb (String.eqb (sig w) (Oid w)) then
        mret (w, (false, Some (mismatch (Oid w) (sig w))))
      else
        err ← Stat (filename w);
        match err with
        | Some _ =>
            file_Close f;;
            let w := set_tempFile w None in
            err ← Rename (tempFilename w) (filename w);
            mret (w, (true, err))
        | None =>
            '(w, err) ← Close w;
            mret (w, (false, err))
        end
  end.

(** *** Outcomes of [cleanupFile] and of the rename branch, in closed
    form (see [cleanupFile_eq] and [Accept_open]). *)

(** The world [cleanupFile] leaves, and the errors of its two calls. *)
Definition cleanup_world (f : OsFile) (σ : World) : World :=
  let σ1 := if closed f then σ else pop σ in
  match directive σ1 with
  | Some _ => pop σ1
  | None => mkWorld (removed (name f) (names σ1)) (store σ1) (tail (faults σ1))
  end.

Definition remove_err (f : OsFile) (σ : World) : option error :=
  failing (directive (if closed f then σ else pop σ)).

Definition cleanup_err (f : OsFile) (σ : World) : option error :=
  match remove_err f σ with
  | Some e => Some e
  | None => close_err f σ
  end.

(** The world after [file_Close] and [Rename], the rename branch of
    [Accept]. *)
Definition after_close (f : OsFile) (σ : World) : World :=
  if closed f then σ else pop σ.

Definition rename_world (oldpath newpath : string) (σ : World) : World :=
  match directive σ, names σ !! oldpath with
  | None, Some i =>
      mkWorld (<[newpath := i]> (delete oldpath (names σ)))
              (store σ) (tail (faults σ))
  | _, _ => pop σ
  end.

(** A caller's script: a sequence of method calls on one writer. *)
Inductive call : Type :=
  | CallWrite (p : list byte)
  | CallAccept
  | CallClose.

Inductive result : Type :=
  | RetWrite (n : nat) (err : option error)
  | RetAccept (created : bool) (err : option error)
  | RetClose (err : option error).

Definition result_err (r : result) : option error :=
  match r with
  | RetWrite _ e | RetAccept _ e | RetClose e => e
  end.

Definition do_call (w : File) (c : call) : M (File * result) :=
  match c with
  | CallWrite p => '(w, (n, err)) ← Write w p; mret (w, RetWrite n err)
  | CallAccept => '(w, (b, err)) ← Accept w; mret (w, RetAccept b err)
  | CallClose => '(w, err) ← Close w; mret (w, RetClose err)
  end.

Fixpoint do_calls (w : File) (cs : list call) : M (File * list result) :=
  match cs with
  | [] => mret (w, [])
  | c :: cs' =>
      '(w, r) ← do_call w c;
      '(w, rs) ← do_calls w cs';
      mret (w, r :: rs)
  end.

(** An open writer that has been fed [acc], and a calm world in which its
    staging inode holds [acc]. *)
Definition fed (oid filename temp : string) (i : ino) (acc : list byte)
    : File :=
  mkFile oid filename temp (Some (mkOsFile temp i false))
         (Sha256.Write Sha256.New acc).

Definition holding (i : ino) (nm : gmap string ino)
    (st : gmap ino (list byte)) (acc : list byte) : World :=
  mkWorld nm (<[i := acc]> st) [].

(** A whole session: construct, then run the script. *)
Definition session (filename suffix : string) (cs : list call)
    : M (option (File * list result)) :=
  '(w, err) ← NewWithSuffix filename suffix;
  match w with
  | None => mret None
  | Some w =>
      r ← do_calls w cs;
      mret (Some r)
  end.

(** The scenario of the tests: construct, write the chunks, accept. *)
Definition store_chunks (filename suffix : string) (chunks : list (list byte))
    : M (option (File * list result)) :=
  session filename suffix (map CallWrite chunks ++ [CallAccept]).

(** The identity of a writer: the three strings fixed at construction. *)
Definition same_paths (w w' : File) : Prop :=
  Oid w' = Oid w /\ filename w' = filename w /\
  tempFilename w' = tempFilename w.

(** The handle of an open writer is the one opened at the staging path. *)
Definition bound (w : File) : Prop :=
  forall f, tempFile w = Some f -> name f = tempFilename w.

End CA.

(* ===================================================================== *)
(** ** Scenarios of the test suite, and the claims that fail as stated    *)
(* ===================================================================== *)

Module Scenario.
Import OS CA.

(** [supOid] of the tests: the SHA-256 of ["SUP"]. *)
Definition supOid : string :=
  "a2b71d6ee8997eb87b25ab42d566c44f6a32871752c7c73eb5578cb1182f7be0".

(** The identifier of [TestFileMismatch], one digit off. *)
Definition badOid : string :=
  "b2b71d6ee8997eb87b25ab42d566c44f6a32871752c7c73eb5578cb1182f7be0".

Definition SUP : list byte := bytes_of "SUP".

Definition dest : string := "File/" +:+ supOid.
Definition staging : string := dest +:+ DefaultSuffix.
Definition bad_dest : string := "File/" +:+ badOid.
Definition bad_staging : string := bad_dest +:+ DefaultSuffix.

(** An empty directory, with a schedule of failures. *)
Definition empty_world (fl : list (option fault)) : World := mkWorld ∅ ∅ fl.

(** The writer and the world after [NewFile(dest)] and [Write("SUP")] in
    an empty directory. *)
Definition sup_writer : File :=
  mkFile supOid dest staging (Some (mkOsFile staging 0%nat false))
         (Sha256.Write Sha256.New SUP).

Definition sup_world (fl : list (option fault)) : World :=
  mkWorld {[ staging := 0%nat ]} {[ 0%nat := SUP ]} fl.

(** The writer and the world right after [NewFile(dest)]. *)
Definition new_writer : File :=
  mkFile supOid dest staging (Some (mkOsFile staging 0%nat false)) Sha256.New.

Definition new_world (fl : list (option fault)) : World :=
  mkWorld {[ staging := 0%nat ]} {[ 0%nat := [] ]} fl.

(** The same for the mismatching identifier. *)
Definition bad_writer : File :=
  mkFile badOid bad_dest bad_staging (Some (mkOsFile bad_staging 0%nat false))
         (Sha256.Write Sha256.New SUP).

Definition bad_world (fl : list (option fault)) : World :=
  mkWorld {[ bad_staging := 0%nat ]} {[ 0%nat := SUP ]} fl.

(** The world of [TestTempFileCleanup]: the destination is already there
    (created empty by the test) when the writer accepts. *)
Definition dup_world (fl : list (option fault)) : World :=
  mkWorld (<[ dest := 1%nat ]> {[ staging := 0%nat ]})
          (<[ 1%nat := [] ]> {[ 0%nat := SUP ]}) fl.

(** [TestTempFileCleanup] before its [Write]: the writer is fresh and the
    test has just created the destination. *)
Definition new_dup_world (fl : list (option fault)) : World :=
  mkWorld (<[ dest := 1%nat ]> {[ staging := 0%nat ]})
          (<[ 1%nat := [] ]> {[ 0%nat := [] ]}) fl.

(** A directory in which the destination is already there, empty, before
    any writer is constructed. *)
Definition taken_world (fl : list (option fault)) : World :=
  mkWorld {[ dest := 1%nat ]} {[ 1%nat := [] ]} fl.

(** [TestFileDuel]: two constructions for the same path. *)
Definition duel : M (option error * option error) :=
  '(_, err1) ← NewFile dest;
  '(_, err2) ← NewFile dest;
  mret (err1, err2).

Definition ok : option fault := None.
Definition fails (e : oserr) : option fault := Some (Fault e 0).

(** A write that fails after accepting [n] bytes. *)
Definition short (e : oserr) (n : nat) : option fault := Some (Fault e n).

End Scenario.

Module AsStated.
Import OS CA.

(** C1 as stated, granting that no operation fails and that the staging
    path is free: for every [B] and every chunking, the session ends with
    an [Accept] that returns [(true, nil)] and the destination holds
    [B]. *)
Definition accept_always_publishes : Prop :=
  forall (B : list byte) (chunks : list (list byte))
         (filename suffix : string) (σ : World),
    concat chunks = B ->
    Base filename = sha256hex B ->
    faults σ = [] ->
    names σ !! (filename +:+ suffix) = None ->
    exists w' rs σ' evs,
      store_chunks filename suffix chunks σ =
        (Some (w', rs ++ [RetAccept true None]), σ', evs) /\
      read_file σ' filename = Some B.

(** C6 as stated: on an open writer with a matching digest and a file at
    the destination, [Accept] returns [created = false] with the error of
    the internal [Close], no file is left at the staging path, and the
    destination reads as before. *)
Definition duplicate_always_discards : Prop :=
  forall w f σ i,
    tempFile w = Some f ->
    name f = tempFilename w ->
    sig w = Oid w ->
    names σ !! filename w = Some i ->
    let r := Accept w σ in
    (ret_of r).2.1 = false /\
    (ret_of r).2.2 = (ret_of (Close w (pop σ))).2 /\
    names (world_of r) !! tempFilename w = None /\
    read_file (world_of r) (filename w) = read_file σ (filename w).

(** C4 as stated: any [Accept] on an open writer leaves it closed. *)
Definition accept_always_closes : Prop :=
  forall w σ, Closed w = false -> Closed (ret_of (Accept w σ)).1 = true.

(** C9 as stated: [Close] on a closed writer is a no-op returning nil, and
    after any [Close] the writer reports closed. *)
Definition close_always_closes : Prop :=
  (forall w σ, Closed w = true -> Close w σ = ((w, None), σ, [])) /\
  (forall w σ, Closed (ret_of (Close w σ)).1 = true).

(** C3 as stated: whenever the digest reflects the bytes in the staging
    file before a [Write], it reflects the bytes in the staging file after
    it, whatever the write returned. *)
Definition digest_tracks_file : Prop :=
  forall w f σ p acc,
    tempFile w = Some f ->
    store σ !! inode f = Some acc ->
    hasher w = Sha256.Write Sha256.New acc ->
    exists acc',
      store (world_of (Write w p σ)) !! inode f = Some acc' /\
      hasher (ret_of (Write w p σ)).1 = Sha256.Write Sha256.New acc'.


(** C8 as stated, in its weakest reading: a call during which some system
    call failed returns an error. *)
Definition no_error_swallowed : Prop :=
  forall w c σ ev,
    ev ∈ events_of (do_call w c σ) ->
    ev_err ev <> None ->
    result_err (ret_of (do_call w c σ)).2 <> None.

End AsStated.

(* ===================================================================== *)
(** ** Notions for the properties beyond the claims                       *)
(* ===================================================================== *)

Module Script.
Import OS CA.

(** The bytes a sequence of [Write] calls reported as written: of each
    chunk the first [n] bytes, [n] being the count the call returned. *)
Fixpoint taken (ps : list (list byte)) (rs : list result) : list byte :=
  match ps, rs with
  | p :: ps', RetWrite n _ :: rs' => take n p ++ taken ps' rs'
  | _, _ => []
  end.

(** Every call of the script returned no error. *)
Definition all_ok (rs : list result) : Prop :=
  Forall (fun r => result_err r = None) rs.

(** No name of the world dangles: each is bound to an inode of the store. *)
Definition linked (σ : World) : Prop :=
  forall q j, names σ !! q = Some j -> is_Some (store σ !! j).

(** A path element: not empty, and without a separator. *)
Definition element (name : string) : Prop :=
  name <> "" /\
  Forall (fun c => IsPathSeparator c = false) (list_ascii_of_string name).

(** What a call on a closed writer returns. *)
Definition closed_result (c : call) : result :=
  match c with
  | CallWrite _ => RetWrite 0 (Some AlreadyClosed)
  | CallAccept => RetAccept false (Some AlreadyClosed)
  | CallClose => RetClose None
  end.

(** A writer for the destination ["File/SUP"], fed with ["SUP"]: its
    identifier has three characters. *)
Definition short_oid_writer : File :=
  mkFile "SUP" "File/SUP" "File/SUP-temp"
         (Some (mkOsFile "File/SUP-temp" 0%nat false))
         (Sha256.Write Sha256.New (bytes_of "SUP")).

(** The open handle, if any, is still the one [w] had. *)
Definition same_handle (w w' : File) : Prop :=
  forall f', tempFile w' = Some f' ->
    exists f, tempFile w = Some f /\ name f' = name f /\ inode f' = inode f.

End Script.

(* ===================================================================== *)
(** ** Facts about the streaming digest                                   *)
(* ===================================================================== *)

Module Sha256Facts.
Import Sha256.
Local Open Scope nat_scope.

Lemma whole_le p : whole p <= length p.
Proof. unfold whole. lia. Qed.

Lemma whole_rest p : length (drop (whole p) p) = length p mod chunk.
Proof.
  rewrite length_drop. unfold whole, chunk.
  pose proof (Nat.Div0.mod_le (length p) 64). lia.
Qed.

Lemma whole_app a b k :
  length a = chunk * k -> whole (a ++ b) = length a + whole b.
Proof.
  intros Ha. unfold whole. rewrite length_app, Ha.
  replace (chunk * k + length b) with (length b + k * chunk) by lia.
  rewrite Nat.Div0.mod_add.
  pose proof (Nat.Div0.mod_le (length b) chunk). lia.
Qed.

Ltac clia := unfold chunk in *; lia.

Lemma block_loop_S f h p :
  block_loop (S f) h p =
    if chunk <=? length p
    then block_loop f (compress h (take chunk p)) (drop chunk p)
    else h.
Proof. reflexivity. Qed.

(** Any fuel that covers the number of whole blocks gives the same
    result: the loop has then run to its end. *)
Lemma block_loop_fuel f1 : forall f2 h p,
  length p < chunk * S f1 -> length p < chunk * S f2 ->
  block_loop f1 h p = block_loop f2 h p.
Proof.
  induction f1 as [|f1 IH]; intros [|f2] h p H1 H2;
    rewrite ?block_loop_S; try reflexivity.
  - destruct (Nat.leb_spec chunk (length p)); [clia | reflexivity].
  - destruct (Nat.leb_spec chunk (length p)); [clia | reflexivity].
  - destruct (Nat.leb_spec chunk (length p)); [|reflexivity].
    apply IH; rewrite length_drop; clia.
Qed.

Lemma block_enough f h p :
  length p < chunk * S f -> block_loop f h p = block h p.
Proof.
  intros Hf. unfold block. apply block_loop_fuel; [exact Hf | clia].
Qed.

Lemma block_short h p : length p < chunk -> block h p = h.
Proof.
  intros Hp. rewrite <- (block_enough 0) by clia. reflexivity.
Qed.

Lemma block_step h p :
  chunk <= length p ->
  block h p = block (compress h (take chunk p)) (drop chunk p).
Proof.
  intros Hp. unfold block at 1.
  destruct (length p) as [|n] eqn:Hn; [clia|].
  rewrite block_loop_S, Hn.
  destruct (Nat.leb_spec chunk (S n)) as [_|Hc]; [|lia].
  apply block_enough. rewrite length_drop. clia.
Qed.

(** Whole blocks in front can be processed first. *)
Lemma block_app k : forall h a b,
  length a = chunk * k -> block h (a ++ b) = block (block h a) b.
Proof.
  induction k as [|k IH]; intros h a b Ha.
  - destruct a; [|simpl in Ha; unfold chunk in Ha; lia].
    simpl. rewrite (block_short h []) by (unfold chunk; simpl; lia).
    reflexivity.
  - assert (Hc : chunk <= length a) by (unfold chunk in *; lia).
    rewrite (block_step h (a ++ b)) by (rewrite length_app; lia).
    rewrite (block_step h a) by exact Hc.
    rewrite take_app_le, drop_app_le by exact Hc.
    apply IH. rewrite length_drop. unfold chunk in *. lia.
Qed.

Lemma whole_take_length p : length (take (whole p) p) = chunk * (length p / chunk).
Proof.
  rewrite length_take. pose proof (whole_le p).
  unfold whole in *. pose proof (Nat.div_mod_eq (length p) chunk). lia.
Qed.

(** The bytes after the last whole block do not enter the chaining value. *)
Lemma block_whole h p : block h p = block h (take (whole p) p).
Proof.
  rewrite <- (take_drop (whole p) p) at 1.
  rewrite (block_app (length p / chunk)) by apply whole_take_length.
  apply block_short. rewrite whole_rest.
  apply Nat.mod_upper_bound. unfold chunk. lia.
Qed.

(** [Write] in one equation: the buffer and the new bytes are taken
    together, whole blocks are hashed and the rest is buffered. *)
Lemma whole_short p : length p < chunk -> whole p = 0.
Proof. intros Hp. unfold whole. rewrite Nat.mod_small by exact Hp. lia. Qed.

(** The second and third steps of [Write], on an empty buffer. *)
Lemma Write_tail h0 q l :
  (let '(h2, p2) :=
     if chunk <=? length q
     then (block h0 (take (length q - length q mod chunk) q),
           drop (length q - length q mod chunk) q)
     else (h0, q) in
   {| h := h2; x := if 0 <? length p2 then p2 else []; len := l |}) =
  {| h := block h0 q; x := drop (whole q) q; len := l |}.
Proof.
  fold (whole q).
  destruct (Nat.leb_spec chunk (length q)) as [Hc|Hc].
  - rewrite <- block_whole.
    destruct (Nat.ltb_spec 0 (length (drop (whole q) q))) as [Hr|Hr];
      [reflexivity|].
    destruct (drop (whole q) q); [reflexivity | simpl in Hr; lia].
  - rewrite block_short, whole_short, drop_0 by exact Hc.
    destruct q; reflexivity.
Qed.

Lemma Write_spec d p :
  wf d ->
  Write d p =
    {| h := block (h d) (x d ++ p);
       x := drop (whole (x d ++ p)) (x d ++ p);
       len := ((len d + Z.of_nat (length p)) mod 2 ^ 64)%Z |}.
Proof.
  unfold wf, nx. intros Hwf. unfold Write, nx.
  destruct (Nat.ltb_spec 0 (length (x d))) as [Hpos|Hzero].
  - (* bytes already buffered *)
    set (n := Nat.min (chunk - length (x d)) (length p)).
    destruct (Nat.eqb_spec (length (x d ++ take n p)) chunk) as [Hfull|Hpart].
    + (* the buffer fills up: one block, then the rest of p *)
      assert (Hsplit : x d ++ p = (x d ++ take n p) ++ drop n p).
      { rewrite <- app_assoc, take_drop. reflexivity. }
      rewrite Hsplit.
      rewrite (block_app 1 (h d) (x d ++ take n p) (drop n p)) by lia.
      rewrite (whole_app _ _ 1) by lia.
      rewrite drop_app_add' by reflexivity.
      apply Write_tail.
    + (* the buffer stays partial: all of p fits in *)
      assert (Hn : n = length p).
      { rewrite length_app, length_take in Hpart. lia. }
      assert (Hle : length p <= chunk - length (x d)) by lia.
      clearbody n. subst n.
      rewrite firstn_all in Hpart |- *.
      assert (Hlt : length (x d ++ p) < chunk).
      { rewrite length_app in *. lia. }
      rewrite drop_all.
      change (length (@nil byte)) with 0.
      destruct (Nat.leb_spec chunk 0); [clia|].
      rewrite block_short, whole_short, drop_0 by exact Hlt.
      reflexivity.
  - (* empty buffer *)
    assert (Hx : x d = []) by (destruct (x d); [reflexivity | simpl in Hzero; lia]).
    rewrite Hx, app_nil_l. apply Write_tail.
Qed.

Lemma Write_wf d p : wf d -> wf (Write d p).
Proof.
  intros Hwf. rewrite Write_spec by exact Hwf.
  unfold wf, nx. simpl. rewrite whole_rest.
  apply Nat.mod_upper_bound. unfold chunk. lia.
Qed.

Lemma New_wf : wf New.
Proof. unfold wf, nx, chunk. simpl. lia. Qed.

(** The streaming law: writing [a] and then [b] leaves the digest in the
    state that writing [a ++ b] at once does. *)
Lemma Write_app d a b :
  wf d -> Write (Write d a) b = Write d (a ++ b).
Proof.
  intros Hwf.
  rewrite (Write_spec (Write d a)) by (apply Write_wf; exact Hwf).
  rewrite !(Write_spec d) by exact Hwf. simpl.
  set (xa := x d ++ a).
  assert (Hsplit : x d ++ a ++ b = take (whole xa) xa ++ drop (whole xa) xa ++ b).
  { rewrite !app_assoc, take_drop. reflexivity. }
  f_equal.
  - rewrite Hsplit.
    rewrite (block_app (length xa / chunk) (h d) (take (whole xa) xa))
      by apply whole_take_length.
    rewrite <- block_whole. reflexivity.
  - rewrite Hsplit.
    rewrite (whole_app (take (whole xa) xa) _ (length xa / chunk))
      by apply whole_take_length.
    rewrite drop_app_add' by reflexivity. reflexivity.
  - rewrite length_app, Nat2Z.inj_add.
    rewrite Zplus_mod_idemp_l. f_equal. lia.
Qed.

(** However a message is cut into chunks, feeding the chunks in order
    leaves the digest in the state of the whole message. *)
Lemma Write_chunks chunks : forall acc,
  fold_left Write chunks (Write New acc) = Write New (acc ++ concat chunks).
Proof.
  induction chunks as [|c chunks IH]; intros acc; simpl.
  - rewrite app_nil_r. reflexivity.
  - rewrite Write_app by apply New_wf.
    rewrite IH, app_assoc. reflexivity.
Qed.

End Sha256Facts.

(* ===================================================================== *)
(** ** Running the writer                                                 *)
(* ===================================================================== *)

Import OS CA.

Ltac unbind := cbv beta iota zeta delta [mbind M_bind mret M_ret emit get].

Section SystemCalls.

Lemma next_fault_eq σ : next_fault σ = (directive σ, pop σ, []).
Proof. destruct σ as [nm st [|d fl]]; reflexivity. Qed.

Lemma MkdirAll_eq path σ :
  MkdirAll path σ =
    (failing (directive σ), pop σ, [EvMkdirAll path (failing (directive σ))]).
Proof. unfold MkdirAll. unbind. rewrite next_fault_eq. reflexivity. Qed.

Lemma OpenFile_eq path σ :
  OpenFile path σ =
    match directive σ, names σ !! path with
    | Some ft, _ =>
        ((None, Some (Sys (ferr ft))), pop σ,
         [EvOpenFile path (Some (Sys (ferr ft)))])
    | None, Some _ =>
        ((None, Some (Sys EEXIST)), pop σ,
         [EvOpenFile path (Some (Sys EEXIST))])
    | None, None =>
        let i := fresh (dom (store σ)) in
        ((Some (mkOsFile path i false), None),
         mkWorld (<[path := i]> (names σ)) (<[i := []]> (store σ))
                 (tail (faults σ)),
         [EvOpenFile path None])
    end.
Proof.
  unfold OpenFile. unbind. rewrite next_fault_eq.
  destruct (directive σ); [reflexivity|].
  change (names (pop σ)) with (names σ).
  destruct (names σ !! path); reflexivity.
Qed.

Lemma Stat_eq path σ :
  Stat path σ = (stat_err path σ, pop σ, [EvStat path (stat_err path σ)]).
Proof.
  unfold Stat, stat_err. unbind. rewrite next_fault_eq. reflexivity.
Qed.

Lemma file_Close_eq f σ :
  file_Close f σ =
    ((mkOsFile (name f) (inode f) true, close_err f σ),
     (if closed f then σ else pop σ),
     [EvClose (name f) (close_err f σ)]).
Proof.
  unfold file_Close, close_err. destruct (closed f); unbind;
    [reflexivity|].
  rewrite next_fault_eq. reflexivity.
Qed.

Lemma RemoveAll_eq path σ :
  RemoveAll path σ =
    (failing (directive σ),
     match directive σ with
     | Some _ => pop σ
     | None => mkWorld (removed path (names σ)) (store σ) (tail (faults σ))
     end,
     [EvRemoveAll path (failing (directive σ))]).
Proof.
  unfold RemoveAll. unbind. rewrite next_fault_eq.
  destruct (directive σ); reflexivity.
Qed.

Lemma Rename_eq oldpath newpath σ :
  Rename oldpath newpath σ =
    (rename_err oldpath σ,
     match directive σ, names σ !! oldpath with
     | None, Some i =>
         mkWorld (<[newpath := i]> (delete oldpath (names σ)))
                 (store σ) (tail (faults σ))
     | _, _ => pop σ
     end,
     [EvRename oldpath newpath (rename_err oldpath σ)]).
Proof.
  unfold Rename, rename_err. unbind. rewrite next_fault_eq.
  destruct (directive σ); [reflexivity|].
  change (names (pop σ)) with (names σ).
  destruct (names σ !! oldpath); reflexivity.
Qed.

Lemma file_Write_eq f p σ :
  file_Write f p σ =
    if closed f then
      ((0%nat, Some (Sys ErrClosed)), σ,
       [EvWrite (name f) 0 (Some (Sys ErrClosed))])
    else
      ((accepted p σ, failing (directive σ)),
       mkWorld (names σ)
               (alter (fun old => old ++ take (accepted p σ) p) (inode f)
                      (store σ))
               (tail (faults σ)),
       [EvWrite (name f) (accepted p σ) (failing (directive σ))]).
Proof.
  unfold file_Write, accepted. destruct (closed f); unbind; [reflexivity|].
  rewrite next_fault_eq.
  destruct (directive σ); [reflexivity|].
  rewrite firstn_all. reflexivity.
Qed.

End SystemCalls.

Section Removal.

Lemma length_append (a b : string) :
  String.length (a +:+ b) = (String.length a + String.length b)%nat.
Proof.
  induction a as [|c a IH]; [reflexivity|].
  change (S (String.length (a +:+ b)) =
          S (String.length a + String.length b)).
  rewrite IH. reflexivity.
Qed.

Lemma starts_with_length pre : forall s,
  starts_with pre s = true -> (String.length pre <= String.length s)%nat.
Proof.
  induction pre as [|a pre IH]; intros [|b s] H; cbn in *;
    try discriminate; try lia.
  apply andb_true_iff in H as [_ H]. apply IH in H. lia.
Qed.

(** Nothing is below itself, and a path is not below a longer one. *)
Lemma below_longer dir path :
  (String.length path <= String.length dir)%nat -> below dir path = false.
Proof.
  intros Hlen. unfold below.
  destruct (starts_with (dir +:+ "/") path) eqn:H; [|reflexivity].
  apply starts_with_length in H. rewrite length_append in H.
  cbn in H. lia.
Qed.

(** The destination is not below the staging path built from it. *)
Lemma below_staging filename suffix :
  below (filename +:+ suffix) filename = false.
Proof. apply below_longer. rewrite length_append. lia. Qed.

Lemma removed_self path nm : removed path nm !! path = None.
Proof.
  unfold removed. destruct (nm !! path) eqn:H.
  - apply lookup_delete_eq.
  - apply map_lookup_filter_None. left. exact H.
Qed.


(** Of a regular file only the name is removed. *)
Lemma removed_file path nm i :
  nm !! path = Some i -> removed path nm = delete path nm.
Proof. intros H. unfold removed. rewrite H. reflexivity. Qed.

End Removal.

Section WriterFacts.

Lemma Closed_true w : Closed w = true <-> tempFile w = None.
Proof. unfold Closed. destruct (tempFile w); split; congruence. Qed.

Lemma Closed_false w : Closed w = false <-> exists f, tempFile w = Some f.
Proof.
  unfold Closed. destruct (tempFile w) as [f|]; split; try congruence.
  - eauto.
  - intros [f Hf]. congruence.
Qed.

(** On a closed writer every method is a no-op that touches nothing. *)
Lemma Write_closed w p σ :
  tempFile w = None -> Write w p σ = ((w, (0%nat, Some AlreadyClosed)), σ, []).
Proof. intros H. unfold Write. rewrite H. reflexivity. Qed.

Lemma Accept_closed w σ :
  tempFile w = None -> Accept w σ = ((w, (false, Some AlreadyClosed)), σ, []).
Proof. intros H. unfold Accept. rewrite H. reflexivity. Qed.

Lemma Close_closed w σ :
  tempFile w = None -> Close w σ = ((w, None), σ, []).
Proof. intros H. unfold Close. rewrite H. reflexivity. Qed.

(** [Write] on an open writer: the digest takes all of [p], the file
    what the write accepts. *)
Lemma Write_open w f p σ :
  tempFile w = Some f ->
  Write w p σ =
    if closed f then
      ((set_hasher w (Sha256.Write (hasher w) p),
        (0%nat, Some (Sys ErrClosed))), σ,
       [EvWrite (name f) 0 (Some (Sys ErrClosed))])
    else
      ((set_hasher w (Sha256.Write (hasher w) p),
        (accepted p σ, failing (directive σ))),
       mkWorld (names σ)
               (alter (fun old => old ++ take (accepted p σ) p) (inode f)
                      (store σ))
               (tail (faults σ)),
       [EvWrite (name f) (accepted p σ) (failing (directive σ))]).
Proof.
  intros Hf. unfold Write. rewrite Hf. unbind. rewrite file_Write_eq.
  destruct (closed f); reflexivity.
Qed.

(** [cleanupFile] in one equation. *)
Lemma cleanupFile_eq f σ :
  cleanupFile f σ =
    ((mkOsFile (name f) (inode f) true, cleanup_err f σ),
     cleanup_world f σ,
     [EvClose (name f) (close_err f σ); EvRemoveAll (name f) (remove_err f σ)]).
Proof.
  unfold cleanupFile, cleanup_err, cleanup_world, remove_err. unbind.
  rewrite file_Close_eq, RemoveAll_eq.
  destruct (failing _); reflexivity.
Qed.

Lemma cleanup_world_store f σ : store (cleanup_world f σ) = store σ.
Proof.
  unfold cleanup_world.
  destruct (closed f); [destruct (directive σ) | destruct (directive (pop σ))];
    reflexivity.
Qed.

Lemma cleanup_world_names f σ :
  names (cleanup_world f σ) =
    match remove_err f σ with
    | Some _ => names σ
    | None => removed (name f) (names σ)
    end.
Proof.
  unfold cleanup_world, remove_err.
  destruct (closed f); [destruct (directive σ) | destruct (directive (pop σ))];
    reflexivity.
Qed.

Lemma Close_open w f σ :
  tempFile w = Some f ->
  Close w σ =
    ((set_tempFile w
        (match cleanup_err f σ with
         | Some _ => Some (mkOsFile (name f) (inode f) true)
         | None => None
         end),
      cleanup_err f σ),
     cleanup_world f σ,
     [EvClose (name f) (close_err f σ); EvRemoveAll (name f) (remove_err f σ)]).
Proof.
  intros Hf. unfold Close. rewrite Hf. unbind. rewrite cleanupFile_eq.
  destruct (cleanup_err f σ); simpl; rewrite ?app_nil_r; reflexivity.
Qed.

(** [Accept] on an open writer, branch by branch. *)
Lemma Accept_open w f σ :
  tempFile w = Some f ->
  Accept w σ =
    if negb (String.eqb (sig w) (Oid w)) then
      ((w, (false, Some (mismatch (Oid w) (sig w)))), σ, [])
    else
      match stat_err (filename w) σ with
      | Some e =>
          let σ2 := after_close f (pop σ) in
          ((set_tempFile w None,
            (true, rename_err (tempFilename w) σ2)),
           rename_world (tempFilename w) (filename w) σ2,
           [EvStat (filename w) (Some e);
            EvClose (name f) (close_err f (pop σ));
            EvRename (tempFilename w) (filename w)
                     (rename_err (tempFilename w) σ2)])
      | None =>
          ((set_tempFile w
              (match cleanup_err f (pop σ) with
               | Some _ => Some (mkOsFile (name f) (inode f) true)
               | None => None
               end),
            (false, cleanup_err f (pop σ))),
           cleanup_world f (pop σ),
           [EvStat (filename w) None;
            EvClose (name f) (close_err f (pop σ));
            EvRemoveAll (name f) (remove_err f (pop σ))])
      end.
Proof.
  intros Hf. unfold Accept. rewrite Hf.
  destruct (negb (String.eqb (sig w) (Oid w))); [reflexivity|].
  unbind. rewrite Stat_eq.
  destruct (stat_err (filename w) σ) as [e|].
  - rewrite file_Close_eq.
    change (tempFilename (set_tempFile w None)) with (tempFilename w).
    change (filename (set_tempFile w None)) with (filename w).
    rewrite Rename_eq. reflexivity.
  - rewrite (Close_open w f (pop σ) Hf). reflexivity.
Qed.

(** A scripted call is the method it names. *)
Lemma do_call_Write w p σ :
  do_call w (CallWrite p) σ =
    (((ret_of (Write w p σ)).1,
      RetWrite (ret_of (Write w p σ)).2.1 (ret_of (Write w p σ)).2.2),
     world_of (Write w p σ), events_of (Write w p σ)).
Proof.
  unfold do_call. unbind.
  destruct (Write w p σ) as [[[w' [n err]] σ'] evs].
  unfold ret_of, world_of, events_of. simpl. rewrite app_nil_r. reflexivity.
Qed.

Lemma do_call_Accept w σ :
  do_call w CallAccept σ =
    (((ret_of (Accept w σ)).1,
      RetAccept (ret_of (Accept w σ)).2.1 (ret_of (Accept w σ)).2.2),
     world_of (Accept w σ), events_of (Accept w σ)).
Proof.
  unfold do_call. unbind.
  destruct (Accept w σ) as [[[w' [b err]] σ'] evs].
  unfold ret_of, world_of, events_of. simpl. rewrite app_nil_r. reflexivity.
Qed.

Lemma do_call_Close w σ :
  do_call w CallClose σ =
    (((ret_of (Close w σ)).1, RetClose (ret_of (Close w σ)).2),
     world_of (Close w σ), events_of (Close w σ)).
Proof.
  unfold do_call. unbind.
  destruct (Close w σ) as [[[w' err] σ'] evs].
  unfold ret_of, world_of, events_of. simpl. rewrite app_nil_r. reflexivity.
Qed.

(** No method changes the expected identifier or the two paths, and the
    handle stays the one opened at the staging path. *)
Lemma do_call_keeps_paths w c σ :
  bound w ->
  same_paths w (ret_of (do_call w c σ)).1 /\
  bound (ret_of (do_call w c σ)).1.
Proof.
  intros Hb. unfold same_paths, bound in *.
  destruct (tempFile w) as [f|] eqn:Hf.
  - specialize (Hb f eq_refl).
    destruct c as [p| |].
    + rewrite do_call_Write, (Write_open w f p σ Hf).
      destruct (closed f); unfold ret_of; cbn [fst snd];
        (split; [repeat split|]);
        cbn [set_hasher tempFile tempFilename]; rewrite Hf;
        intros f' [= <-]; exact Hb.
    + rewrite do_call_Accept, (Accept_open w f σ Hf).
      destruct (negb _).
      { unfold ret_of; cbn [fst snd]. split; [repeat split|].
        rewrite Hf. intros f' [= <-]; exact Hb. }
      destruct (stat_err _ _).
      { unfold ret_of; cbn [fst snd]. split; [repeat split|].
        cbn [set_tempFile tempFile]. discriminate. }
      unfold ret_of; cbn [fst snd]. split; [repeat split|].
      cbn [set_tempFile tempFile tempFilename].
      destruct (cleanup_err _ _); [|discriminate].
      intros f' [= <-]. exact Hb.
    + rewrite do_call_Close, (Close_open w f σ Hf).
      unfold ret_of; cbn [fst snd]. split; [repeat split|].
      cbn [set_tempFile tempFile tempFilename].
      destruct (cleanup_err _ _); [|discriminate].
      intros f' [= <-]. exact Hb.
  - assert (Hsame : (ret_of (do_call w c σ)).1 = w).
    { destruct c as [p| |].
      - rewrite do_call_Write, (Write_closed w p σ Hf). reflexivity.
      - rewrite do_call_Accept, (Accept_closed w σ Hf). reflexivity.
      - rewrite do_call_Close, (Close_closed w σ Hf). reflexivity. }
    rewrite Hsame, Hf. split; [repeat split | discriminate].
Qed.

(** What the constructor returns, when it returns a writer. *)
Lemma NewWithSuffix_bound filename suffix σ w :
  (ret_of (NewWithSuffix filename suffix σ)).1 = Some w ->
  bound w /\ Oid w = Base filename /\ CA.filename w = filename /\
  tempFilename w = filename +:+ suffix /\ hasher w = Sha256.New /\
  Closed w = false.
Proof.
  unfold NewWithSuffix. unbind. rewrite MkdirAll_eq.
  destruct (failing (directive σ)); [discriminate|].
  rewrite OpenFile_eq.
  destruct (directive (pop σ)); [discriminate|].
  destruct (names (pop σ) !! (filename +:+ suffix)); [discriminate|].
  unfold ret_of. cbn [fst snd]. intros [= <-].
  unfold bound. cbn [tempFile tempFilename Oid CA.filename hasher].
  split; [intros f [= <-]; reflexivity|].
  repeat split.
Qed.

End WriterFacts.


(* ===================================================================== *)
(** ** A fresh writer in a calm world                                     *)
(* ===================================================================== *)

Section FreshWriter.

Lemma append_empty_r (a : string) : a +:+ "" = a.
Proof.
  induction a as [|c a IH]; [reflexivity|].
  change (String c (a +:+ "") = String c a). rewrite IH. reflexivity.
Qed.


Variables (oid filename temp : string) (i : ino).
Variable nm : gmap string ino.

(** One [Write] of a whole chunk. *)
Lemma Write_fed st acc p :
  Write (fed oid filename temp i acc) p (holding i nm st acc) =
    ((fed oid filename temp i (acc ++ p), (length p, None)),
     holding i nm st (acc ++ p),
     [EvWrite temp (length p) None]).
Proof.
  rewrite (Write_open (fed oid filename temp i acc)
                      (mkOsFile temp i false) p _ eq_refl).
  cbn [closed name inode]. unfold holding, accepted, directive, set_hasher, fed.
  cbn [faults hd tail names store failing hasher Oid CA.filename tempFilename
       tempFile].
  rewrite Sha256Facts.Write_app by apply Sha256Facts.New_wf.
  rewrite firstn_all, alter_insert_eq. reflexivity.
Qed.

(** Writing the chunks one after the other is writing their
    concatenation: same digest, same bytes in the file, and each call
    reports its whole chunk written. *)
Lemma Write_chunks_fed st chunks : forall acc rest,
  do_calls (fed oid filename temp i acc) (map CallWrite chunks ++ rest)
           (holding i nm st acc) =
    let r := do_calls (fed oid filename temp i (acc ++ concat chunks)) rest
                      (holding i nm st (acc ++ concat chunks)) in
    (((ret_of r).1,
      map (fun p => RetWrite (length p) None) chunks ++ (ret_of r).2),
     world_of r,
     map (fun p => EvWrite temp (length p) None) chunks ++ events_of r).
Proof.
  induction chunks as [|c chunks IH]; intros acc rest.
  - simpl. rewrite app_nil_r.
    destruct (do_calls _ rest _) as [[[w rs] σ] evs]. reflexivity.
  - simpl map. simpl app. simpl concat. cbn [do_calls do_call]. unbind.
    rewrite Write_fed. rewrite IH. cbv zeta. rewrite <- app_assoc.
    destruct (do_calls _ rest _) as [[[w rs] σ] evs].
    unfold ret_of, world_of, events_of. simpl. rewrite app_nil_r. reflexivity.
Qed.

End FreshWriter.

(* ===================================================================== *)
(** ** The scenarios are what the code produces                           *)
(* ===================================================================== *)

Section ScenarioFacts.
Import Scenario.

Lemma sup_oid_is_digest : sha256hex SUP = supOid.
Proof. vm_compute. reflexivity. Qed.

Lemma sup_writer_reached fl :
  (w ← NewFile dest; 
   match w.1 with
   | Some w => Write w SUP
   | None => mret (sup_writer, (0%nat, None))
   end) (empty_world (ok :: ok :: ok :: fl)) =
  ((sup_writer, (3%nat, None)), sup_world fl,
   [EvMkdirAll "File" None; EvOpenFile staging None; EvWrite staging 3 None]).
Proof.
  vm_compute. reflexivity.
Qed.

(** The five tests of the package, run on the model. *)

Example TestFile :
  let r := session dest DefaultSuffix [CallWrite SUP; CallAccept; CallClose]
                   (empty_world []) in
  snd <$> ret_of r =
    Some [RetWrite 3 None; RetAccept true None; RetClose None] /\
  read_file (world_of r) dest = Some SUP.
Proof. vm_compute. split; reflexivity. Qed.

Example TestTempFileCleanup :
  let r := do_calls new_writer [CallWrite SUP; CallAccept; CallClose]
                    (new_dup_world []) in
  (ret_of r).2 = [RetWrite 3 None; RetAccept false None; RetClose None] /\
  names (world_of r) !! staging = None.
Proof. vm_compute. split; reflexivity. Qed.

Example TestFileMismatch :
  let r := session bad_dest DefaultSuffix
                   [CallWrite SUP; CallAccept; CallClose] (empty_world []) in
  snd <$> ret_of r =
    Some [RetWrite 3 None;
          RetAccept false (Some (mismatch badOid supOid));
          RetClose None] /\
  names (world_of r) !! bad_dest = None.
Proof. vm_compute. split; reflexivity. Qed.

Example TestFileCancel :
  let r := session dest DefaultSuffix [CallWrite SUP; CallClose]
                   (empty_world []) in
  snd <$> ret_of r = Some [RetWrite 3 None; RetClose None] /\
  names (world_of r) !! dest = None /\
  names (world_of r) !! staging = None.
Proof. vm_compute. repeat split; reflexivity. Qed.

Example TestFileDuel :
  ret_of (duel (empty_world [])) = (None, Some (Sys EEXIST)).
Proof. vm_compute. reflexivity. Qed.

(** [Teardown] of the tests, [os.RemoveAll] of the test directory, removes
    the files in it; the removal of a regular file leaves its siblings. *)
Example Teardown :
  names (world_of (RemoveAll "File" (dup_world []))) = ∅ /\
  names (world_of (RemoveAll staging (dup_world []))) = {[ dest := 1%nat ]}.
Proof. split; vm_compute; reflexivity. Qed.

Example trailing_separator :
  ends_with_separator (dest +:+ "/") = true /\
  Dir (dest +:+ "/") = dest /\
  Base (dest +:+ "/") = supOid.
Proof. repeat split; vm_compute; reflexivity. Qed.

End ScenarioFacts.

(* ===================================================================== *)
(** ** The claims                                                         *)
(* ===================================================================== *)

Import Scenario.

(** C1, as stated, fails: when a file is already at the destination (as
    in [TestTempFileCleanup]), the session for ["SUP"] under its own
    digest, with the default suffix and nothing failing, ends with an
    [Accept] that returns [(false, nil)], and the destination keeps the
    empty file it had. *)
Lemma accept_always_publishes_fails : ~ AsStated.accept_always_publishes.
Proof.
  intros H.
  destruct (H SUP [SUP] dest DefaultSuffix (taken_world []))
    as (w' & rs & σ' & evs & Hrun & Hread).
  - reflexivity.
  - vm_compute. reflexivity.
  - reflexivity.
  - vm_compute. reflexivity.
  - apply (f_equal world_of) in Hrun.
    change (world_of (store_chunks dest DefaultSuffix [SUP] (taken_world []))
            = σ') in Hrun.
    rewrite <- Hrun in Hread. clear Hrun.
    vm_compute in Hread. discriminate Hread.
Qed.



(** C2.  When [Accept] is called on an open writer whose digest does not
    equal the expected identifier, it returns [created = false] and the
    content-mismatch error whose message carries the expected and then the
    actual identifier.  The call makes no system call at all: the world is
    unchanged, so the staging file is left in place and nothing appears at
    the destination, and the writer keeps its open handle. *)
Theorem accept_mismatch w f σ :
  tempFile w = Some f ->
  sig w <> Oid w ->
  Accept w σ =
    ((w, (false,
          Some (Errorf ("Content mismatch.  Expected OID " +:+ Oid w +:+
                        ", got " +:+ sig w)))),
     σ, []).
Proof.
  intros Hf Hne. rewrite (Accept_open w f σ Hf).
  apply String.eqb_neq in Hne. rewrite Hne. reflexivity.
Qed.

Lemma accept_mismatch_witness :
  tempFile bad_writer = Some (mkOsFile bad_staging 0%nat false) /\
  sig bad_writer <> Oid bad_writer /\
  Accept bad_writer (bad_world []) =
    ((bad_writer,
      (false,
       Some (Errorf ("Content mismatch.  Expected OID " +:+ badOid +:+
                     ", got " +:+ supOid)))),
     bad_world [], []).
Proof.
  split; [reflexivity|].
  split; [vm_compute; discriminate|].
  apply (accept_mismatch bad_writer (mkOsFile bad_staging 0%nat false));
    [reflexivity | vm_compute; discriminate].
Defined.

(** C3, as stated, fails: a write that runs out of space after one byte
    leaves ["S"] in the staging file and ["SUP"] in the digest. *)
Lemma digest_tracks_file_fails : ~ AsStated.digest_tracks_file.
Proof.
  intros H.
  destruct (H new_writer (mkOsFile staging 0%nat false)
              (new_world [short ENOSPC 1]) SUP [] eq_refl eq_refl eq_refl)
    as (acc' & Hfile & Hdigest).
  vm_compute in Hfile. injection Hfile as <-.
  vm_compute in Hdigest. discriminate.
Qed.

(** C3, amended.  If the digest reflects the bytes [acc] in the staging
    file, then after [Write(p)] returning [(n, err)] the digest reflects
    [acc ++ p], all of [p], while the staging file holds [acc] followed by
    the first [n] bytes of [p].  The two agree when the write returned no
    error, for then [n = len(p)]; after a short or failed write the digest
    is ahead of the file. *)
Theorem write_feeds_digest w f σ p acc :
  tempFile w = Some f ->
  store σ !! inode f = Some acc ->
  hasher w = Sha256.Write Sha256.New acc ->
  let w' := (ret_of (Write w p σ)).1 in
  let n := (ret_of (Write w p σ)).2.1 in
  let err := (ret_of (Write w p σ)).2.2 in
  hasher w' = Sha256.Write Sha256.New (acc ++ p) /\
  store (world_of (Write w p σ)) !! inode f = Some (acc ++ take n p) /\
  (n <= length p)%nat /\
  (err = None ->
   n = length p /\ hasher w' = Sha256.Write Sha256.New (acc ++ take n p)).
Proof.
  intros Hf Hst Hh. cbv zeta.
  rewrite (Write_open w f p σ Hf).
  assert (Hfeed : Sha256.Write (hasher w) p = Sha256.Write Sha256.New (acc ++ p)).
  { rewrite Hh. apply Sha256Facts.Write_app, Sha256Facts.New_wf. }
  destruct (closed f); unfold ret_of, world_of; cbn [fst snd set_hasher hasher store].
  - rewrite take_0, app_nil_r.
    repeat split; [exact Hfeed | exact Hst | lia | discriminate | discriminate].
  - rewrite lookup_alter_eq, Hst. cbn [fmap option_fmap option_map].
    unfold accepted, failing.
    destruct (directive σ) as [ft|].
    + repeat split; [exact Hfeed | lia | discriminate | discriminate].
    + rewrite firstn_all.
      repeat split; [exact Hfeed | lia | exact Hfeed].
Qed.

Lemma write_feeds_digest_witness :
  tempFile new_writer = Some (mkOsFile staging 0%nat false) /\
  hasher (ret_of (Write new_writer SUP (new_world [short ENOSPC 1]))).1 =
    Sha256.Write Sha256.New SUP /\
  store (world_of (Write new_writer SUP (new_world [short ENOSPC 1])))
    !! 0%nat = Some (bytes_of "S").
Proof.
  split; [reflexivity|].
  destruct (write_feeds_digest new_writer (mkOsFile staging 0%nat false)
              (new_world [short ENOSPC 1]) SUP [] eq_refl eq_refl eq_refl)
    as (Hdigest & Hfile & _).
  split; [exact Hdigest | exact Hfile].
Defined.

(** C4, as stated, fails: after a mismatch the writer is still open. *)
Lemma accept_always_closes_fails : ~ AsStated.accept_always_closes.
Proof.
  intros H. specialize (H bad_writer (bad_world []) eq_refl).
  vm_compute in H. discriminate.
Qed.

(** C4, amended.  An [Accept] on an open writer closes it exactly when it
    reports [created = true] or returns no error, that is on the rename
    branch, whatever the rename returns, and on the duplicate branch when
    the cleanup succeeds.  From then on every [Write] and [Accept] returns
    [AlreadyClosed] and touches nothing.  After a mismatch, or a failed
    cleanup, the writer still reports open. *)
Theorem accept_closes_unless_error w σ :
  Closed w = false ->
  let w' := (ret_of (Accept w σ)).1 in
  let created := (ret_of (Accept w σ)).2.1 in
  let err := (ret_of (Accept w σ)).2.2 in
  (Closed w' = true <-> created = true \/ err = None) /\
  (Closed w' = true ->
   forall p σ2,
     Write w' p σ2 = ((w', (0%nat, Some AlreadyClosed)), σ2, []) /\
     Accept w' σ2 = ((w', (false, Some AlreadyClosed)), σ2, [])).
Proof.
  intros Hopen. apply Closed_false in Hopen as [f Hf].
  cbv zeta. split.
  - rewrite (Accept_open w f σ Hf).
    destruct (negb (String.eqb (sig w) (Oid w))).
    { unfold ret_of, Closed. simpl. rewrite Hf.
      split; [discriminate | intros [?|?]; discriminate]. }
    destruct (stat_err (filename w) σ).
    { unfold ret_of, Closed. simpl. split; auto. }
    unfold ret_of, Closed. simpl.
    destruct (cleanup_err f (pop σ)); simpl.
    + split; [discriminate | intros [?|?]; discriminate].
    + split; auto.
  - intros Hc p σ2. apply Closed_true in Hc.
    split; [apply Write_closed | apply Accept_closed]; exact Hc.
Qed.

Lemma accept_closes_unless_error_witness :
  Closed sup_writer = false /\
  Closed (ret_of (Accept sup_writer (sup_world []))).1 = true /\
  Write (ret_of (Accept sup_writer (sup_world []))).1 SUP (sup_world []) =
    (((ret_of (Accept sup_writer (sup_world []))).1,
      (0%nat, Some AlreadyClosed)), sup_world [], []).
Proof.
  split; [reflexivity|].
  pose proof (accept_closes_unless_error sup_writer (sup_world []) eq_refl)
    as [Hiff Hlater].
  assert (Hc : Closed (ret_of (Accept sup_writer (sup_world []))).1 = true).
  { apply Hiff. left. vm_compute. reflexivity. }
  split; [exact Hc|].
  apply (Hlater Hc SUP (sup_world [])).
Defined.




(** C6, as stated, fails: a file at the destination does not make
    [Accept] take the duplicate branch when [Stat] fails (permission denied
    on the directory, say).  [Accept] then renames: with the destination of
    [TestTempFileCleanup] in place it returns [created = true], and the
    destination holds the staged bytes instead of the file it had. *)
Lemma duplicate_always_discards_fails : ~ AsStated.duplicate_always_discards.
Proof.
  intros H.
  destruct (H sup_writer (mkOsFile staging 0%nat false)
              (dup_world [fails EACCES]) 1%nat)
    as (Hcreated & _).
  - reflexivity.
  - reflexivity.
  - vm_compute. reflexivity.
  - reflexivity.
  - vm_compute in Hcreated. discriminate Hcreated.
Qed.

(** Nor is the staging file always removed on the duplicate branch: when
    the removal fails, [Accept] returns [(false, err)] and the staging
    file is still there. *)
Example duplicate_removal_may_fail :
  (ret_of (Accept sup_writer (dup_world [ok; ok; fails EACCES]))).2 =
    (false, Some (Sys EACCES)) /\
  read_file (world_of (Accept sup_writer (dup_world [ok; ok; fails EACCES])))
            staging = Some SUP.
Proof. split; vm_compute; reflexivity. Qed.



(** Two lemmas around C7.  After a mismatch the writer is still open, and
    a [Close] whose removal does not fail removes the staging file. *)
Lemma close_after_mismatch_removes_staging w f σ :
  tempFile w = Some f ->
  bound w ->
  sig w <> Oid w ->
  remove_err f σ = None ->
  let r := Accept w σ in
  names (world_of (Close (ret_of r).1 (world_of r))) !! tempFilename w = None.
Proof.
  intros Hf Hb Hne Hrm. cbv zeta.
  rewrite (Accept_open w f σ Hf).
  apply String.eqb_neq in Hne. rewrite Hne. cbn [negb].
  unfold ret_of, world_of. cbn [fst snd].
  rewrite (Close_open w f σ Hf). cbn [fst snd].
  rewrite cleanup_world_names, Hrm, (Hb f Hf).
  apply removed_self.
Qed.

(** After a failed rename the writer is already closed: the [Close] that
    follows does nothing, and the staging file stays where it was. *)
Lemma failed_rename_orphans_staging w f σ i e :
  tempFile w = Some f ->
  names σ !! tempFilename w = Some i ->
  (ret_of (Accept w σ)).2 = (true, Some e) ->
  let w' := (ret_of (Accept w σ)).1 in
  let σ' := world_of (Accept w σ) in
  Close w' σ' = ((w', None), σ', []) /\
  names σ' !! tempFilename w = Some i.
Proof.
  intros Hf Htemp. cbv zeta.
  rewrite (Accept_open w f σ Hf).
  destruct (negb _); [unfold ret_of; cbn [fst snd]; discriminate|].
  destruct (stat_err _ _) as [e0|]; [|unfold ret_of; cbn [fst snd]; discriminate].
  unfold ret_of, world_of. cbn [fst snd]. intros [= Hren].
  split; [apply Close_closed; reflexivity|].
  unfold rename_err, rename_world in *.
  set (σ2 := after_close f (pop σ)) in *.
  assert (Hnames : names σ2 = names σ).
  { unfold σ2, after_close. destruct (closed f); reflexivity. }
  destruct (directive σ2).
  - cbn [pop names]. rewrite Hnames. exact Htemp.
  - rewrite Hnames, Htemp in Hren. discriminate.
Qed.

(** C7, evaluated where it fails.  [NewFile], [Write("SUP")], then an
    [Accept] whose rename fails (permission denied), then [Close]: the
    [Accept] returns [(true, err)] with the writer already marked closed,
    so the [Close] is a no-op that returns nil, and the staging file is
    still there, with its three bytes, while nothing is at the
    destination. *)
Theorem close_after_failed_rename_keeps_staging :
  exists w' σ' evs,
    session dest DefaultSuffix [CallWrite SUP; CallAccept; CallClose]
            (empty_world [ok; ok; ok; ok; ok; fails EACCES]) =
      (Some (w', [RetWrite 3 None;
                  RetAccept true (Some (Sys EACCES));
                  RetClose None]), σ', evs) /\
    Closed w' = true /\
    read_file σ' staging = Some SUP /\
    names σ' !! dest = None /\
    evs = [EvMkdirAll "File" None; EvOpenFile staging None;
           EvWrite staging 3 None;
           EvStat dest (Some (Sys ENOENT)); EvClose staging None;
           EvRename staging dest (Some (Sys EACCES))].
Proof.
  eexists _, _, _. split; [vm_compute; reflexivity|].
  repeat split; vm_compute; reflexivity.
Qed.

(** C8, as stated, fails: when closing the staging handle fails (an I/O
    error, say) on the rename branch of [Accept], and the rename then
    succeeds, [Accept] returns [(true, nil)]. *)
Lemma no_error_swallowed_fails : ~ AsStated.no_error_swallowed.
Proof.
  intros H.
  apply (H sup_writer CallAccept (sup_world [ok; fails EIO])
           (EvClose staging (Some (Sys EIO)))).
  - vm_compute. apply list_elem_of_further, list_elem_of_here.
  - discriminate.
  - vm_compute. reflexivity.
Qed.

(** C8, amended.  An error of a write, of the rename or of the removal,
    and in the constructor of the directory creation or of the file
    creation, is what the call returns to its caller.  An error of closing
    the handle is returned by the calls that go on to remove the staging
    file, [Close] and the duplicate branch of [Accept], when the removal
    succeeds; when the removal fails too they return the removal's error
    instead.  Two errors are not returned: the error of [Stat], which only
    selects the branch of [Accept], and the error of closing the staging
    handle on the rename branch; [Accept] then returns what the rename
    returns, nil if it succeeds.  [Close] on a closed writer makes no
    system call and returns nil. *)
Theorem errors_surface w c filename suffix σ :
  (forall ev e,
     ev ∈ events_of (do_call w c σ) ->
     ev_err ev = Some e ->
     let evs := events_of (do_call w c σ) in
     let err := result_err (ret_of (do_call w c σ)).2 in
     match ev with
     | EvStat _ _ =>
         exists r, EvRename (tempFilename w) (CA.filename w) r ∈ evs /\ err = r
     | EvClose p _ =>
         if renames evs
         then exists r,
                EvRename (tempFilename w) (CA.filename w) r ∈ evs /\ err = r
         else exists rerr,
                EvRemoveAll p rerr ∈ evs /\
                err = match rerr with Some e' => Some e' | None => Some e end
     | _ => err = Some e
     end) /\
  (forall ev e,
     ev ∈ events_of (NewWithSuffix filename suffix σ) ->
     ev_err ev = Some e ->
     (ret_of (NewWithSuffix filename suffix σ)).2 = Some e) /\
  (Closed w = true -> do_call w CallClose σ = ((w, RetClose None), σ, [])).
Proof.
  split; [|split].
  - intros ev e Hin He. cbv zeta. revert Hin.
    destruct (tempFile w) as [f|] eqn:Hf.
    + destruct c as [p| |].
      * rewrite do_call_Write, (Write_open w f p σ Hf).
        destruct (closed f); unfold events_of, ret_of; cbn [fst snd result_err];
          intros Hin%list_elem_of_singleton; subst ev; exact He.
      * rewrite do_call_Accept, (Accept_open w f σ Hf).
        destruct (negb _).
        { unfold events_of; cbn [snd]. intros Hin%elem_of_nil. contradiction. }
        destruct (stat_err _ _) as [e0|];
          unfold events_of, ret_of; cbn [fst snd result_err];
          rewrite !elem_of_cons, elem_of_nil;
          intros [->|[->|[->|[]]]]; cbn [ev_err] in He; try discriminate He;
          cbn [renames existsb is_rename orb].
        { eexists. split; [|reflexivity].
          apply list_elem_of_further, list_elem_of_further, list_elem_of_here. }
        { eexists. split; [|reflexivity].
          apply list_elem_of_further, list_elem_of_further, list_elem_of_here. }
        { exact He. }
        { exists (remove_err f (pop σ)).
          split; [apply list_elem_of_further, list_elem_of_further,
                        list_elem_of_here|].
          unfold cleanup_err. rewrite He.
          destruct (remove_err _ _); reflexivity. }
        { unfold cleanup_err. rewrite He. reflexivity. }
      * rewrite do_call_Close, (Close_open w f σ Hf).
        unfold events_of, ret_of; cbn [fst snd result_err].
        rewrite !elem_of_cons, elem_of_nil.
        intros [->|[->|[]]]; cbn [ev_err] in He;
          cbn [renames existsb is_rename orb].
        { exists (remove_err f σ).
          split; [apply list_elem_of_further, list_elem_of_here|].
          unfold cleanup_err. rewrite He.
          destruct (remove_err _ _); reflexivity. }
        { unfold cleanup_err. rewrite He. reflexivity. }
    + assert (Hnone : events_of (do_call w c σ) = []).
      { destruct c as [p| |].
        - rewrite do_call_Write, (Write_closed w p σ Hf). reflexivity.
        - rewrite do_call_Accept, (Accept_closed w σ Hf). reflexivity.
        - rewrite do_call_Close, (Close_closed w σ Hf). reflexivity. }
      rewrite Hnone. intros Hin%elem_of_nil. contradiction.
  - intros ev e Hin He. revert Hin.
    unfold NewWithSuffix. unbind. rewrite MkdirAll_eq.
    destruct (failing (directive σ)) as [e1|] eqn:Hd.
    + unfold events_of, ret_of. cbn [fst snd app].
      intros Hin%list_elem_of_singleton. subst ev. exact He.
    + rewrite OpenFile_eq.
      destruct (directive (pop σ)) as [ft|];
        [|destruct (names (pop σ) !! (filename +:+ suffix))];
        unfold events_of, ret_of; cbn [fst snd app];
        rewrite !elem_of_cons, elem_of_nil;
        intros [->|[->|[]]]; cbn [ev_err] in He; try discriminate;
        exact He.
  - intros Hc. apply Closed_true in Hc.
    rewrite do_call_Close, (Close_closed w σ Hc). reflexivity.
Qed.

Lemma errors_surface_witness :
  EvRemoveAll staging (Some (Sys EACCES))
    ∈ events_of (do_call sup_writer CallClose
                         (sup_world [fails EIO; fails EACCES])) /\
  result_err (ret_of (do_call sup_writer CallClose
                              (sup_world [fails EIO; fails EACCES]))).2 =
    Some (Sys EACCES) /\
  EvClose staging (Some (Sys EIO))
    ∈ events_of (do_call sup_writer CallClose (sup_world [fails EIO])) /\
  result_err (ret_of (do_call sup_writer CallClose
                              (sup_world [fails EIO]))).2 =
    Some (Sys EIO).
Proof.
  assert (Hin : EvRemoveAll staging (Some (Sys EACCES))
             ∈ events_of (do_call sup_writer CallClose
                                  (sup_world [fails EIO; fails EACCES]))).
  { vm_compute. apply list_elem_of_further, list_elem_of_here. }
  assert (Hin2 : EvClose staging (Some (Sys EIO))
             ∈ events_of (do_call sup_writer CallClose
                                  (sup_world [fails EIO]))).
  { vm_compute. apply list_elem_of_here. }
  split; [exact Hin|].
  split.
  - destruct (errors_surface sup_writer CallClose dest DefaultSuffix
                (sup_world [fails EIO; fails EACCES])) as [Hcall _].
    exact (Hcall _ _ Hin eq_refl).
  - destruct (errors_surface sup_writer CallClose dest DefaultSuffix
                (sup_world [fails EIO])) as [Hcall _].
    pose proof (Hcall _ _ Hin2 eq_refl) as Hret. clear Hcall.
    assert (Hev : events_of (do_call sup_writer CallClose
                                     (sup_world [fails EIO])) =
                  [EvClose staging (Some (Sys EIO)); EvRemoveAll staging None])
      by (vm_compute; reflexivity).
    cbv zeta in Hret. rewrite Hev in Hret.
    cbn [renames existsb is_rename orb] in Hret.
    destruct Hret as (rerr & Hrm & Hret).
    rewrite !elem_of_cons, elem_of_nil in Hrm.
    destruct Hrm as [Hrm|[Hrm|[]]]; [discriminate Hrm|].
    injection Hrm as ->. split; [exact Hin2 | exact Hret].
Defined.

(** C9, as stated, fails: when the removal of the staging file fails,
    [Close] returns the error and the writer still reports open. *)
Lemma close_always_closes_fails : ~ AsStated.close_always_closes.
Proof.
  intros [_ H].
  specialize (H sup_writer (sup_world [ok; fails EACCES])).
  vm_compute in H. discriminate.
Qed.

(** C9, amended.  [Close] on an already-closed writer is a no-op that
    returns nil and touches nothing.  After any [Close] that returns nil
    the writer reports closed, a further [Close] is such a no-op, and the
    writer stays closed under every later sequence of calls.  A [Close]
    whose cleanup fails, in the close of the handle or in the removal of
    the staging file, returns an error, one of those that occurred, and
    leaves the writer open: it then reports not closed. *)
Theorem close_idempotent w σ :
  let w' := (ret_of (Close w σ)).1 in
  let err := (ret_of (Close w σ)).2 in
  (Closed w = true -> Close w σ = ((w, None), σ, [])) /\
  (err = None ->
   Closed w' = true /\
   (forall σ2, Close w' σ2 = ((w', None), σ2, [])) /\
   (forall cs σ2, Closed (ret_of (do_calls w' cs σ2)).1 = true)) /\
  ((exists ev, ev ∈ events_of (Close w σ) /\ ev_err ev <> None) ->
   err <> None) /\
  (forall e, err = Some e ->
   Closed w' = false /\
   exists ev, ev ∈ events_of (Close w σ) /\ ev_err ev = Some e).
Proof.
  cbv zeta.
  split.
  { intros Hw. apply Close_closed, Closed_true. exact Hw. }
  split.
  { intros Hnil.
    assert (Hc : tempFile (ret_of (Close w σ)).1 = None).
    { destruct (tempFile w) as [f|] eqn:Hf.
      - rewrite (Close_open w f σ Hf) in Hnil |- *.
        unfold ret_of in *. simpl in *. rewrite Hnil. reflexivity.
      - rewrite (Close_closed w σ Hf). exact Hf. }
    clear Hnil.
    set (w' := (ret_of (Close w σ)).1) in *. clearbody w'.
    split; [apply Closed_true; exact Hc|].
    split; [intros σ2; apply Close_closed; exact Hc|].
    intros cs. revert w' Hc.
    induction cs as [|c cs IH]; intros w' Hc σ2.
    - apply Closed_true. exact Hc.
    - simpl. unbind.
      assert (Hstep : exists r, do_call w' c σ2 = ((w', r), σ2, [])).
      { destruct c; simpl; unbind.
        - rewrite (Write_closed w' p σ2 Hc). eauto.
        - rewrite (Accept_closed w' σ2 Hc). eauto.
        - rewrite (Close_closed w' σ2 Hc). eauto. }
      destruct Hstep as [r ->].
      specialize (IH w' Hc σ2).
      destruct (do_calls w' cs σ2) as [[[w2 rs] σ3] evs]. exact IH. }
  destruct (tempFile w) as [f|] eqn:Hf.
  - rewrite (Close_open w f σ Hf).
    unfold ret_of, events_of. cbn [fst snd]. unfold cleanup_err.
    split.
    + intros (ev & Hin & Hev).
      rewrite !elem_of_cons, elem_of_nil in Hin.
      destruct Hin as [->|[->|[]]]; cbn [ev_err] in Hev.
      * destruct (remove_err f σ); [discriminate | exact Hev].
      * destruct (remove_err f σ); [discriminate | congruence].
    + intros e He.
      destruct (remove_err f σ) as [e1|] eqn:Hrm.
      * injection He as <-. split; [reflexivity|].
        exists (EvRemoveAll (name f) (Some e1)).
        split; [apply list_elem_of_further, list_elem_of_here | reflexivity].
      * rewrite He. split; [reflexivity|].
        exists (EvClose (name f) (Some e)).
        split; [apply list_elem_of_here | reflexivity].
  - rewrite (Close_closed w σ Hf).
    unfold ret_of, events_of. cbn [fst snd].
    split.
    + intros (ev & Hin & _). apply elem_of_nil in Hin. contradiction.
    + intros e He. discriminate He.
Qed.

Lemma close_idempotent_witness :
  Closed (ret_of (Close sup_writer (sup_world []))).1 = true /\
  Closed (ret_of (do_calls (ret_of (Close sup_writer (sup_world []))).1
                           [CallWrite SUP; CallAccept; CallClose]
                           (sup_world []))).1 = true /\
  Closed (ret_of (Close sup_writer (sup_world [ok; fails EACCES]))).1 = false.
Proof.
  pose proof (close_idempotent sup_writer (sup_world []))
    as (_ & Hnil & _ & _).
  destruct (Hnil eq_refl) as (Hc & _ & Hstay).
  split; [exact Hc|].
  split; [apply Hstay|].
  pose proof (close_idempotent sup_writer (sup_world [ok; fails EACCES]))
    as (_ & _ & _ & Hopen).
  exact (proj1 (Hopen (Sys EACCES) eq_refl)).
Defined.

(** C10.  When [Close] cleans up an open writer it closes the handle and
    then removes the staging file, and the error of the removal takes
    precedence: if the removal fails its error is returned and the error of
    the close is dropped; the error of the close is returned only when the
    removal succeeds.  After a cleanup that returned an error the writer
    still reports open, and a further [Close] runs the cleanup again. *)
Theorem close_removal_error_first w f σ :
  tempFile w = Some f ->
  exists cerr rerr,
    let w' := (ret_of (Close w σ)).1 in
    let err := (ret_of (Close w σ)).2 in
    events_of (Close w σ) =
      [EvClose (name f) cerr; EvRemoveAll (name f) rerr] /\
    err = match rerr with Some e => Some e | None => cerr end /\
    (err <> None ->
     Closed w' = false /\
     forall σ2, exists c r,
       events_of (Close w' σ2) = [EvClose (name f) c; EvRemoveAll (name f) r]).
Proof.
  intros Hf. exists (close_err f σ), (remove_err f σ). cbv zeta.
  rewrite (Close_open w f σ Hf). unfold ret_of, events_of. simpl.
  split; [reflexivity|]. split; [reflexivity|].
  intros Herr. destruct (cleanup_err f σ) as [e|]; [|congruence].
  split; [reflexivity|]. intros σ2.
  eexists _, _.
  rewrite (Close_open
             (set_tempFile w (Some (mkOsFile (name f) (inode f) true)))
             (mkOsFile (name f) (inode f) true) σ2 eq_refl).
  reflexivity.
Qed.

Lemma close_removal_error_first_witness :
  tempFile sup_writer = Some (mkOsFile staging 0%nat false) /\
  (ret_of (Close sup_writer (sup_world [fails EIO; fails EACCES]))).2 =
    Some (Sys EACCES) /\
  Closed (ret_of (Close sup_writer (sup_world [fails EIO; fails EACCES]))).1 =
    false.
Proof.
  split; [reflexivity|].
  destruct (close_removal_error_first sup_writer
              (mkOsFile staging 0%nat false)
              (sup_world [fails EIO; fails EACCES]) eq_refl)
    as (cerr & rerr & Hev & Herr & Hopen).
  vm_compute in Hev. injection Hev as <- <-.
  split; [exact Herr|].
  apply Hopen. rewrite Herr. discriminate.
Defined.

(** A remark on the retry of C10.  The handle was closed by the failed
    cleanup, so on a retry its [Close] reports that it is already closed:
    the retry removes the staging file when the removal now succeeds, but
    it returns an error again and the writer goes on reporting open. *)
Lemma close_retry_returns_error w f σ σ2 :
  tempFile w = Some f ->
  (ret_of (Close w σ)).2 <> None ->
  let w' := (ret_of (Close w σ)).1 in
  (ret_of (Close w' σ2)).2 <> None /\
  Closed (ret_of (Close w' σ2)).1 = false /\
  (remove_err (mkOsFile (name f) (inode f) true) σ2 = None ->
   names (world_of (Close w' σ2)) !! name f = None).
Proof.
  intros Hf. cbv zeta. rewrite (Close_open w f σ Hf).
  unfold ret_of, world_of. cbn [fst snd].
  destruct (cleanup_err f σ) as [e|]; [intros _ | congruence].
  rewrite (Close_open
             (set_tempFile w (Some (mkOsFile (name f) (inode f) true)))
             (mkOsFile (name f) (inode f) true) σ2 eq_refl).
  cbn [fst snd]. unfold cleanup_err, close_err. cbn [closed].
  split; [destruct (remove_err _ σ2); discriminate|].
  split; [destruct (remove_err _ σ2); reflexivity|].
  intros Hrm. rewrite cleanup_world_names, Hrm. cbn [name].
  apply removed_self.
Qed.

(* ===================================================================== *)
(** ** Beyond the claims: scripts of calls                                *)
(* ===================================================================== *)

Import Script.

Section Scripts.

Lemma do_calls_cons w c cs σ :
  do_calls w (c :: cs) σ =
    let r1 := do_call w c σ in
    let r2 := do_calls (ret_of r1).1 cs (world_of r1) in
    (((ret_of r2).1, (ret_of r1).2 :: (ret_of r2).2),
     world_of r2, events_of r1 ++ events_of r2).
Proof.
  cbn [do_calls]. unbind. cbv zeta.
  destruct (do_call w c σ) as [[[w1 r1] σ1] evs1].
  unfold ret_of, world_of, events_of. cbn [fst snd].
  destruct (do_calls w1 cs σ1) as [[[w2 rs] σ2] evs2]. cbn [fst snd].
  rewrite !app_nil_r. reflexivity.
Qed.

Lemma do_calls_nil w σ : do_calls w [] σ = ((w, []), σ, []).
Proof. reflexivity. Qed.

(** A call on a closed writer. *)
Lemma do_call_closed w c σ :
  tempFile w = None ->
  do_call w c σ = ((w, closed_result c), σ, []).
Proof.
  intros Hc. destruct c as [p| |].
  - rewrite do_call_Write, (Write_closed w p σ Hc). reflexivity.
  - rewrite do_call_Accept, (Accept_closed w σ Hc). reflexivity.
  - rewrite do_call_Close, (Close_closed w σ Hc). reflexivity.
Qed.

End Scripts.

(** X1.  A closed writer is inert: whatever script of calls follows, no
    system call is made, the world and the writer stay as they are, every
    [Write] returns [(0, AlreadyClosed)], every [Accept] returns
    [(false, AlreadyClosed)] and every [Close] returns nil. *)
Theorem closed_writer_is_inert w cs σ :
  Closed w = true ->
  do_calls w cs σ = ((w, map closed_result cs), σ, []).
Proof.
  intros Hc. apply Closed_true in Hc.
  induction cs as [|c cs IH]; [reflexivity|].
  rewrite do_calls_cons, (do_call_closed w c σ Hc). cbv zeta.
  unfold ret_of, world_of, events_of. cbn [fst snd].
  rewrite IH. reflexivity.
Qed.

Lemma closed_writer_is_inert_witness :
  Closed (set_tempFile sup_writer None) = true /\
  do_calls (set_tempFile sup_writer None)
           [CallWrite SUP; CallAccept; CallClose]
           (sup_world [fails EIO]) =
    ((set_tempFile sup_writer None,
      [RetWrite 0 (Some AlreadyClosed);
       RetAccept false (Some AlreadyClosed);
       RetClose None]),
     sup_world [fails EIO], []).
Proof.
  split; [reflexivity|].
  apply (closed_writer_is_inert (set_tempFile sup_writer None)
           [CallWrite SUP; CallAccept; CallClose] (sup_world [fails EIO])).
  reflexivity.
Defined.

Section Frames.

Lemma after_close_names f σ : names (after_close f σ) = names σ.
Proof. unfold after_close. destruct (closed f); reflexivity. Qed.

Lemma after_close_store f σ : store (after_close f σ) = store σ.
Proof. unfold after_close. destruct (closed f); reflexivity. Qed.

Lemma rename_world_store oldpath newpath σ :
  store (rename_world oldpath newpath σ) = store σ.
Proof.
  unfold rename_world.
  destruct (directive σ); [reflexivity|].
  destruct (names σ !! oldpath); reflexivity.
Qed.

(** A rename either fails and leaves the names alone, or succeeds and
    rebinds the new name. *)
Lemma rename_world_names oldpath newpath σ :
  match rename_err oldpath σ with
  | Some _ => names (rename_world oldpath newpath σ) = names σ
  | None =>
      exists i, names σ !! oldpath = Some i /\
        names (rename_world oldpath newpath σ) =
          <[newpath := i]> (delete oldpath (names σ))
  end.
Proof.
  unfold rename_err, rename_world.
  destruct (directive σ); [reflexivity|].
  destruct (names σ !! oldpath) as [i|]; [|reflexivity].
  exists i. split; reflexivity.
Qed.



(** No call replaces the handle by another one. *)
Lemma do_call_same_handle w c σ :
  same_handle w (ret_of (do_call w c σ)).1.
Proof.
  unfold same_handle. destruct (tempFile w) as [f|] eqn:Hf.
  - destruct c as [p| |].
    + rewrite do_call_Write, (Write_open w f p σ Hf).
      destruct (closed f); unfold ret_of; cbn [fst snd set_hasher tempFile];
        rewrite Hf; intros f' [= <-]; eauto.
    + rewrite do_call_Accept, (Accept_open w f σ Hf).
      destruct (negb _).
      { unfold ret_of; cbn [fst snd]. rewrite Hf. intros f' [= <-]; eauto. }
      destruct (stat_err _ _); unfold ret_of; cbn [fst snd set_tempFile tempFile].
      { discriminate. }
      destruct (cleanup_err _ _); [|discriminate].
      intros f' [= <-]. eauto.
    + rewrite do_call_Close, (Close_open w f σ Hf).
      unfold ret_of; cbn [fst snd set_tempFile tempFile].
      destruct (cleanup_err _ _); [|discriminate].
      intros f' [= <-]. eauto.
  - rewrite (do_call_closed w c σ Hf). unfold ret_of; cbn [fst snd].
    rewrite Hf. discriminate.
Qed.

End Frames.





(** X4.  What [Accept] publishes hashes to the identifier.  If the digest
    of an open writer reflects the bytes [acc] of its staging file, and
    [Accept] returns [(true, nil)], then the destination holds exactly
    [acc] and the hex SHA-256 of [acc] is the writer's [Oid]. *)
Theorem accepted_content_hashes_to_oid w f σ acc :
  tempFile w = Some f ->
  names σ !! tempFilename w = Some (inode f) ->
  store σ !! inode f = Some acc ->
  hasher w = Sha256.Write Sha256.New acc ->
  (ret_of (Accept w σ)).2 = (true, None) ->
  read_file (world_of (Accept w σ)) (filename w) = Some acc /\
  sha256hex acc = Oid w.
Proof.
  intros Hf Htemp Hst Hh. rewrite (Accept_open w f σ Hf).
  destruct (negb (String.eqb (sig w) (Oid w))) eqn:Hsig;
    [unfold ret_of; cbn [fst snd]; discriminate|].
  apply negb_false_iff, String.eqb_eq in Hsig.
  destruct (stat_err _ _); unfold ret_of, world_of; cbn [fst snd];
    [|discriminate].
  intros [= Hren].
  pose proof (rename_world_names (tempFilename w) (filename w)
                (after_close f (pop σ))) as Hrn.
  rewrite Hren in Hrn. destruct Hrn as (i & Hi & Hnames).
  rewrite after_close_names in Hi. cbn [pop names] in Hi.
  assert (i = inode f) by congruence. subst i.
  split.
  - unfold read_file. rewrite Hnames, rename_world_store, after_close_store.
    rewrite lookup_insert_eq. exact Hst.
  - rewrite <- Hsig. unfold sig, sha256hex, Sha256.Sum256. rewrite Hh.
    reflexivity.
Qed.

Lemma accepted_content_hashes_to_oid_witness :
  (ret_of (Accept sup_writer (sup_world []))).2 = (true, None) /\
  read_file (world_of (Accept sup_writer (sup_world []))) dest = Some SUP /\
  sha256hex SUP = supOid.
Proof.
  assert (Hret : (ret_of (Accept sup_writer (sup_world []))).2 = (true, None))
    by (vm_compute; reflexivity).
  split; [exact Hret|].
  apply (accepted_content_hashes_to_oid sup_writer
           (mkOsFile staging 0%nat false) (sup_world []) SUP);
    [reflexivity | reflexivity | reflexivity | reflexivity | exact Hret].
Defined.

Section WriteScripts.

Lemma ret_of_mk {A} (a : A) (σ : World) (evs : list event) :
  ret_of (a, σ, evs) = a.
Proof. reflexivity. Qed.

Lemma world_of_mk {A} (a : A) (σ : World) (evs : list event) :
  world_of (a, σ, evs) = σ.
Proof. reflexivity. Qed.

(** One [Write], with the digest and the file followed separately. *)
Lemma Write_step w f p σ dacc facc :
  tempFile w = Some f ->
  store σ !! inode f = Some facc ->
  hasher w = Sha256.Write Sha256.New dacc ->
  let r := Write w p σ in
  tempFile (ret_of r).1 = Some f /\
  names (world_of r) = names σ /\
  hasher (ret_of r).1 = Sha256.Write Sha256.New (dacc ++ p) /\
  store (world_of r) !! inode f = Some (facc ++ take (ret_of r).2.1 p) /\
  ((ret_of r).2.2 = None -> (ret_of r).2.1 = length p).
Proof.
  intros Hf Hst Hh. cbv zeta. rewrite (Write_open w f p σ Hf).
  assert (Hfeed : Sha256.Write (hasher w) p =
                  Sha256.Write Sha256.New (dacc ++ p)).
  { rewrite Hh. apply Sha256Facts.Write_app, Sha256Facts.New_wf. }
  destruct (closed f); unfold ret_of, world_of;
    cbn [fst snd set_hasher hasher tempFile names store].
  - rewrite take_0, app_nil_r.
    repeat split; try assumption. discriminate.
  - rewrite lookup_alter_eq, Hst. cbn [fmap option_fmap option_map].
    repeat split; try assumption.
    unfold accepted, failing. destruct (directive σ); [discriminate|reflexivity].
Qed.

End WriteScripts.

(** X5.  Over any sequence of [Write] calls on an open writer, whatever
    the writes return: the writer stays open with the same handle, no name
    changes, the digest ends up fed with the concatenation of all the
    chunks, and the staging file has grown by exactly the bytes the calls
    reported as written.  When every call returned no error these are the
    same bytes. *)
Theorem writes_accumulate ps : forall w f σ dacc facc,
  tempFile w = Some f ->
  store σ !! inode f = Some facc ->
  hasher w = Sha256.Write Sha256.New dacc ->
  let r := do_calls w (map CallWrite ps) σ in
  tempFile (ret_of r).1 = Some f /\
  names (world_of r) = names σ /\
  hasher (ret_of r).1 = Sha256.Write Sha256.New (dacc ++ concat ps) /\
  store (world_of r) !! inode f = Some (facc ++ taken ps (ret_of r).2) /\
  (all_ok (ret_of r).2 -> taken ps (ret_of r).2 = concat ps).
Proof.
  induction ps as [|p ps IH]; intros w f σ dacc facc Hf Hst Hh; cbv zeta.
  - cbn [map]. rewrite do_calls_nil.
    unfold ret_of, world_of. cbn [fst snd taken concat].
    rewrite !app_nil_r. repeat split; assumption.
  - cbn [map]. rewrite do_calls_cons. cbv zeta.
    rewrite do_call_Write.
    destruct (Write_step w f p σ dacc facc Hf Hst Hh)
      as (Hf1 & Hn1 & Hh1 & Hst1 & Hok1).
    set (r1 := Write w p σ) in *.
    change (ret_of ((ret_of r1).1, RetWrite (ret_of r1).2.1 (ret_of r1).2.2,
                    world_of r1, events_of r1)).1 with (ret_of r1).1.
    change (world_of ((ret_of r1).1, RetWrite (ret_of r1).2.1 (ret_of r1).2.2,
                      world_of r1, events_of r1)) with (world_of r1).
    change (ret_of ((ret_of r1).1, RetWrite (ret_of r1).2.1 (ret_of r1).2.2,
                    world_of r1, events_of r1)).2
      with (RetWrite (ret_of r1).2.1 (ret_of r1).2.2).
    destruct (IH (ret_of r1).1 f (world_of r1) (dacc ++ p)
                 (facc ++ take (ret_of r1).2.1 p) Hf1 Hst1 Hh1)
      as (Hf2 & Hn2 & Hh2 & Hst2 & Hok2).
    set (r2 := do_calls (ret_of r1).1 (map CallWrite ps) (world_of r1)) in *.
    clearbody r1 r2.
    rewrite !ret_of_mk, !world_of_mk. cbn [fst snd taken concat].
    split; [exact Hf2|].
    split; [rewrite Hn2; exact Hn1|].
    split; [rewrite Hh2, app_assoc; reflexivity|].
    split; [rewrite Hst2, app_assoc; reflexivity|].
    intros Hall. apply Forall_cons in Hall as [He Hall]. cbn [result_err] in He.
    rewrite (Hok2 Hall), (Hok1 He), firstn_all. reflexivity.
Qed.

Lemma writes_accumulate_witness :
  tempFile new_writer = Some (mkOsFile staging 0%nat false) /\
  let r := do_calls new_writer
                    (map CallWrite [bytes_of "S"; bytes_of "UP"])
                    (new_world [ok; short ENOSPC 1]) in
  hasher (ret_of r).1 = Sha256.Write Sha256.New SUP /\
  store (world_of r) !! 0%nat = Some (bytes_of "SU").
Proof.
  split; [reflexivity|].
  destruct (writes_accumulate [bytes_of "S"; bytes_of "UP"] new_writer
              (mkOsFile staging 0%nat false)
              (new_world [ok; short ENOSPC 1]) [] [] eq_refl eq_refl eq_refl)
    as (_ & _ & Hdigest & Hfile & _).
  cbv zeta. split; [exact Hdigest|].
  refine (eq_trans Hfile _). vm_compute. reflexivity.
Defined.

(* ===================================================================== *)
(** ** Beyond the claims: construction                                    *)
(* ===================================================================== *)

Section Construction.

(** [NewWithSuffix] in one equation. *)
Lemma NewWithSuffix_eq filename suffix σ :
  NewWithSuffix filename suffix σ =
    let temp := filename +:+ suffix in
    match failing (directive σ) with
    | Some e =>
        ((None, Some e), pop σ, [EvMkdirAll (Dir filename) (Some e)])
    | None =>
        match directive (pop σ), names σ !! temp with
        | Some ft, _ =>
            ((None, Some (Sys (ferr ft))), pop (pop σ),
             [EvMkdirAll (Dir filename) None;
              EvOpenFile temp (Some (Sys (ferr ft)))])
        | None, Some _ =>
            ((None, Some (Sys EEXIST)), pop (pop σ),
             [EvMkdirAll (Dir filename) None;
              EvOpenFile temp (Some (Sys EEXIST))])
        | None, None =>
            let i := fresh (dom (store σ)) in
            ((Some (mkFile (Base filename) filename temp
                           (Some (mkOsFile temp i false)) Sha256.New),
              None),
             mkWorld (<[temp := i]> (names σ)) (<[i := []]> (store σ))
                     (tail (tail (faults σ))),
             [EvMkdirAll (Dir filename) None; EvOpenFile temp None])
        end
    end.
Proof.
  unfold NewWithSuffix. unbind. rewrite MkdirAll_eq. cbv zeta.
  destruct (failing (directive σ)); [reflexivity|].
  rewrite OpenFile_eq. change (names (pop σ)) with (names σ).
  destruct (directive (pop σ)); [reflexivity|].
  destruct (names σ !! (filename +:+ suffix)); reflexivity.
Qed.

(** The inode a new file gets is not one of the store. *)
Lemma fresh_inode_unused (st : gmap ino (list byte)) :
  st !! fresh (dom st) = None.
Proof. apply not_elem_of_dom, is_fresh. Qed.

End Construction.

(** X6.  Construction is exclusive.  When a file already sits at the
    staging path, [NewWithSuffix] returns no writer and an error (the
    file-exists error when neither of its two calls is made to fail), and
    it changes neither the names nor the contents of any file: the file at
    the staging path is not truncated. *)
Theorem construction_conflict filename suffix σ j :
  names σ !! (filename +:+ suffix) = Some j ->
  exists e,
    ret_of (NewWithSuffix filename suffix σ) = (None, Some e) /\
    names (world_of (NewWithSuffix filename suffix σ)) = names σ /\
    store (world_of (NewWithSuffix filename suffix σ)) = store σ /\
    (faults σ = [] -> e = Sys EEXIST).
Proof.
  intros Htaken. rewrite NewWithSuffix_eq. cbv zeta. rewrite Htaken.
  destruct σ as [nm st fl]. unfold directive, pop. cbn [faults names store].
  destruct fl as [|[ft|] fl]; cbn [hd tail failing].
  - exists (Sys EEXIST). repeat split.
  - exists (Sys (ferr ft)). repeat split. discriminate.
  - destruct fl as [|[ft|] fl]; cbn [hd tail].
    + exists (Sys EEXIST). repeat split.
    + exists (Sys (ferr ft)). repeat split. discriminate.
    + exists (Sys EEXIST). repeat split.
Qed.

Lemma construction_conflict_witness :
  names (sup_world []) !! (dest +:+ DefaultSuffix) = Some 0%nat /\
  ret_of (NewWithSuffix dest DefaultSuffix (sup_world [])) =
    (None, Some (Sys EEXIST)) /\
  store (world_of (NewWithSuffix dest DefaultSuffix (sup_world [])))
    = store (sup_world []).
Proof.
  split; [reflexivity|].
  destruct (construction_conflict dest DefaultSuffix (sup_world []) 0%nat
              eq_refl) as (e & Hret & _ & Hst & He).
  rewrite (He eq_refl) in Hret. split; [exact Hret | exact Hst].
Defined.

(** X7.  Construction fails cleanly.  [NewWithSuffix] returns a writer
    exactly when it returns no error, and when it returns an error it has
    changed neither the names nor the store: no staging file is left
    behind by a failed construction. *)
Theorem construction_fails_cleanly filename suffix σ :
  let r := NewWithSuffix filename suffix σ in
  ((ret_of r).2 = None <-> is_Some (ret_of r).1) /\
  ((ret_of r).2 <> None ->
   names (world_of r) = names σ /\ store (world_of r) = store σ).
Proof.
  cbv zeta. rewrite NewWithSuffix_eq. cbv zeta.
  destruct (failing (directive σ)).
  { unfold ret_of, world_of. cbn [fst snd]. split.
    - split; [discriminate | intros [? ?]; discriminate].
    - intros _. split; reflexivity. }
  destruct (directive (pop σ)).
  { unfold ret_of, world_of. cbn [fst snd]. split.
    - split; [discriminate | intros [? ?]; discriminate].
    - intros _. split; reflexivity. }
  destruct (names σ !! (filename +:+ suffix)).
  { unfold ret_of, world_of. cbn [fst snd]. split.
    - split; [discriminate | intros [? ?]; discriminate].
    - intros _. split; reflexivity. }
  unfold ret_of, world_of. cbn [fst snd]. split.
  - split; [eauto | reflexivity].
  - congruence.
Qed.

(** X8.  A successful construction creates one empty file and nothing
    else.  If [NewWithSuffix] returns a writer in a world without dangling
    names, then the staging path was free before, it now holds an empty
    file that is the one behind the writer's open handle, the digest is
    fresh, and every other path reads exactly as before. *)
Theorem construction_creates_empty_staging filename suffix σ w :
  linked σ ->
  (ret_of (NewWithSuffix filename suffix σ)).1 = Some w ->
  let σ' := world_of (NewWithSuffix filename suffix σ) in
  names σ !! (filename +:+ suffix) = None /\
  read_file σ' (filename +:+ suffix) = Some [] /\
  (exists f, tempFile w = Some f /\ closed f = false /\
             names σ' !! (filename +:+ suffix) = Some (inode f)) /\
  hasher w = Sha256.New /\
  (forall q, q <> filename +:+ suffix -> read_file σ' q = read_file σ q) /\
  linked σ'.
Proof.
  intros Hlinked. cbv zeta. rewrite NewWithSuffix_eq. cbv zeta.
  destruct (failing (directive σ)); [discriminate|].
  destruct (directive (pop σ)); [discriminate|].
  destruct (names σ !! (filename +:+ suffix)) eqn:Hfree; [discriminate|].
  unfold ret_of, world_of. cbn [fst snd]. intros [= <-].
  set (temp := filename +:+ suffix) in *.
  set (i := fresh (dom (store σ))).
  pose proof (fresh_inode_unused (store σ)) as Hi. fold i in Hi.
  split; [reflexivity|].
  split.
  { unfold read_file. cbn [names store].
    rewrite lookup_insert_eq. cbn. apply lookup_insert_eq. }
  split.
  { eexists. cbn [tempFile]. split; [reflexivity|]. cbn [closed inode names].
    split; [reflexivity | apply lookup_insert_eq]. }
  split; [reflexivity|].
  split.
  - intros q Hq. unfold read_file. cbn [names store].
    rewrite lookup_insert_ne by congruence.
    destruct (names σ !! q) as [j|] eqn:Hj; [|reflexivity].
    cbn. apply lookup_insert_ne.
    intros <-. destruct (Hlinked q i Hj) as [bs Hbs]. congruence.
  - intros q j. cbn [names store].
    destruct (decide (temp = q)) as [<-|Hq].
    + rewrite lookup_insert_eq. intros [= <-].
      rewrite lookup_insert_eq. eauto.
    + rewrite lookup_insert_ne by exact Hq. intros Hj.
      destruct (Hlinked q j Hj) as [bs Hbs].
      destruct (decide (i = j)) as [<-|Hij]; [congruence|].
      rewrite lookup_insert_ne by exact Hij. eauto.
Qed.

Lemma construction_creates_empty_staging_witness :
  linked (dup_world []) /\
  (exists w, (ret_of (NewWithSuffix bad_dest DefaultSuffix (dup_world []))).1
             = Some w) /\
  read_file (world_of (NewWithSuffix bad_dest DefaultSuffix (dup_world [])))
            bad_staging = Some [] /\
  read_file (world_of (NewWithSuffix bad_dest DefaultSuffix (dup_world [])))
            staging = Some SUP.
Proof.
  assert (Hl : linked (dup_world [])).
  { intros q j. unfold dup_world. cbn [names store].
    destruct (decide (dest = q)) as [<-|Hq].
    - rewrite lookup_insert_eq. intros [= <-]. vm_compute. eauto.
    - rewrite lookup_insert_ne by exact Hq.
      destruct (decide (staging = q)) as [<-|Hq'].
      + rewrite lookup_singleton_eq. intros [= <-]. vm_compute. eauto.
      + rewrite lookup_singleton_ne by exact Hq'. discriminate. }
  split; [exact Hl|].
  assert (Hw : exists w,
             (ret_of (NewWithSuffix bad_dest DefaultSuffix (dup_world []))).1
             = Some w) by (vm_compute; eauto).
  split; [exact Hw|].
  destruct Hw as [w Hw].
  destruct (construction_creates_empty_staging bad_dest DefaultSuffix
              (dup_world []) w Hl Hw) as (_ & Hempty & _ & _ & Hothers & _).
  split; [exact Hempty|].
  rewrite Hothers; [reflexivity | vm_compute; discriminate].
Defined.

Lemma construction_fails_cleanly_witness :
  (ret_of (NewWithSuffix dest DefaultSuffix
                         (empty_world [ok; fails ENOSPC]))).2 <> None /\
  names (world_of (NewWithSuffix dest DefaultSuffix
                                 (empty_world [ok; fails ENOSPC]))) = ∅.
Proof.
  assert (Herr : (ret_of (NewWithSuffix dest DefaultSuffix
                            (empty_world [ok; fails ENOSPC]))).2 <> None)
    by (vm_compute; discriminate).
  split; [exact Herr|].
  destruct (construction_fails_cleanly dest DefaultSuffix
              (empty_world [ok; fails ENOSPC])) as [_ Hclean].
  destruct (Hclean Herr) as [Hnames _]. exact Hnames.
Defined.

(* ===================================================================== *)
(** ** Beyond the claims: whole sessions in a calm world                  *)
(* ===================================================================== *)

Section CalmSessions.

Variables (filename suffix : string).
Variable nm : gmap string ino.
Variable st : gmap ino (list byte).

Let temp : string := filename +:+ suffix.
Let i : ino := fresh (dom st).

Hypothesis staging_free : nm !! temp = None.

(** Construction and the writes of a session. *)
Lemma session_calm chunks rest :
  session filename suffix (map CallWrite chunks ++ rest) (mkWorld nm st []) =
    let r := do_calls (fed (Base filename) filename temp i (concat chunks))
                      rest
                      (holding i (<[temp := i]> nm) st (concat chunks)) in
    (Some ((ret_of r).1,
           map (fun p => RetWrite (length p) None) chunks ++ (ret_of r).2),
     world_of r,
     [EvMkdirAll (Dir filename) None; EvOpenFile temp None] ++
     map (fun p => EvWrite temp (length p) None) chunks ++ events_of r).
Proof.
  unfold session. unbind. rewrite NewWithSuffix_eq. cbv zeta.
  unfold directive, pop. cbn [faults hd tail failing names store].
  fold temp. rewrite staging_free. fold i.
  change (mkFile (Base filename) filename temp (Some (mkOsFile temp i false))
                 Sha256.New)
    with (fed (Base filename) filename temp i []).
  change (mkWorld (<[temp := i]> nm) (<[i := []]> st) [])
    with (holding i (<[temp := i]> nm) st []).
  rewrite Write_chunks_fed. rewrite !app_nil_l. cbv zeta.
  destruct (do_calls _ rest _) as [[[w rs] σ] evs].
  unfold ret_of, world_of, events_of. cbn [fst snd].
  rewrite app_nil_r. reflexivity.
Qed.

(** [Close] of a fed writer in a calm world removes the staging name. *)
Lemma Close_fed oid names0 acc :
  names0 !! temp = Some i ->
  Close (fed oid filename temp i acc) (holding i names0 st acc) =
    ((set_tempFile (fed oid filename temp i acc) None, None),
     mkWorld (delete temp names0) (<[i := acc]> st) [],
     [EvClose temp None; EvRemoveAll temp None]).
Proof.
  intros Htemp.
  rewrite (Close_open (fed oid filename temp i acc) (mkOsFile temp i false)
                      _ eq_refl).
  unfold cleanup_err, remove_err, close_err, cleanup_world, holding,
    directive, pop.
  cbn [closed name inode faults hd tail failing names store].
  rewrite (removed_file _ _ _ Htemp). reflexivity.
Qed.

(** [Accept] of a fed writer in a calm world: the three outcomes. *)
Lemma Accept_fed oid names0 acc :
  names0 !! temp = Some i ->
  Accept (fed oid filename temp i acc) (holding i names0 st acc) =
    if negb (String.eqb (sha256hex acc) oid) then
      ((fed oid filename temp i acc,
        (false, Some (mismatch oid (sha256hex acc)))),
       holding i names0 st acc, [])
    else
      match names0 !! filename with
      | None =>
          ((set_tempFile (fed oid filename temp i acc) None, (true, None)),
           mkWorld (<[filename := i]> (delete temp names0))
                   (<[i := acc]> st) [],
           [EvStat filename (Some (Sys ENOENT)); EvClose temp None;
            EvRename temp filename None])
      | Some _ =>
          ((set_tempFile (fed oid filename temp i acc) None, (false, None)),
           mkWorld (delete temp names0) (<[i := acc]> st) [],
           [EvStat filename None; EvClose temp None;
            EvRemoveAll temp None])
      end.
Proof.
  intros Htemp.
  rewrite (Accept_open (fed oid filename temp i acc) (mkOsFile temp i false)
                       _ eq_refl).
  change (sig (fed oid filename temp i acc)) with (sha256hex acc).
  change (Oid (fed oid filename temp i acc)) with oid.
  destruct (negb (String.eqb (sha256hex acc) oid)); [reflexivity|].
  unfold stat_err, holding, directive.
  cbn [fed CA.filename tempFilename faults hd names].
  destruct (names0 !! filename).
  - unfold cleanup_err, remove_err, close_err, cleanup_world, directive, pop.
    cbn [closed name inode faults hd tail failing names store].
    rewrite (removed_file _ _ _ Htemp). reflexivity.
  - unfold after_close, rename_err, rename_world, close_err, directive, pop.
    cbn [closed name inode faults hd tail failing names store].
    rewrite Htemp. reflexivity.
Qed.

End CalmSessions.

(** X9.  Cancelling leaves no trace in the name space.  In a world where
    no failure is scheduled and the staging path is free, constructing a
    writer, writing any chunks and calling [Close] without [Accept]
    succeeds at every step and ends with the names exactly as they were
    before the construction: no staging file, and nothing new at the
    destination. *)
Theorem cancel_restores_names filename suffix chunks σ :
  faults σ = [] ->
  names σ !! (filename +:+ suffix) = None ->
  exists w' σ' evs,
    session filename suffix (map CallWrite chunks ++ [CallClose]) σ =
      (Some (w', map (fun p => RetWrite (length p) None) chunks ++
                 [RetClose None]), σ', evs) /\
    names σ' = names σ /\
    Closed w' = true.
Proof.
  intros Hcalm Hfree. destruct σ as [nm st fl]. cbn [faults names] in *.
  subst fl. rewrite (session_calm filename suffix nm st Hfree). cbv zeta.
  rewrite do_calls_cons. cbv zeta.
  rewrite do_calls_nil, do_call_Close, Close_fed by apply lookup_insert_eq.
  unfold ret_of, world_of, events_of. cbn [fst snd].
  eexists _, _, _. split; [reflexivity|].
  split; [|reflexivity].
  cbn [names]. apply delete_insert_id. exact Hfree.
Qed.

Lemma cancel_restores_names_witness :
  faults (dup_world []) = [] /\
  names (dup_world []) !! (bad_dest +:+ DefaultSuffix) = None /\
  exists w' σ' evs,
    session bad_dest DefaultSuffix (map CallWrite [SUP; SUP] ++ [CallClose])
            (dup_world []) =
      (Some (w', [RetWrite 3 None; RetWrite 3 None; RetClose None]),
       σ', evs) /\
    names σ' = names (dup_world []).
Proof.
  split; [reflexivity|]. split; [reflexivity|].
  destruct (cancel_restores_names bad_dest DefaultSuffix [SUP; SUP]
              (dup_world []) eq_refl eq_refl)
    as (w' & σ' & evs & Hrun & Hnames & _).
  exists w', σ', evs. split; [exact Hrun | exact Hnames].
Defined.

(** X10.  A mismatching session publishes nothing.  In a calm world with
    the staging path free, when the base name of the destination is not
    the hex SHA-256 of the bytes written, [Accept] returns [false] with
    the mismatch error naming the base name and the actual digest, the
    [Close] that follows returns nil, and the names end up exactly as they
    were before the construction: the destination was never created and
    the staging file is gone. *)
Theorem mismatch_session_publishes_nothing filename suffix chunks σ :
  faults σ = [] ->
  names σ !! (filename +:+ suffix) = None ->
  Base filename <> sha256hex (concat chunks) ->
  exists w' σ' evs,
    session filename suffix
            (map CallWrite chunks ++ [CallAccept; CallClose]) σ =
      (Some (w', map (fun p => RetWrite (length p) None) chunks ++
                 [RetAccept false
                    (Some (mismatch (Base filename)
                                    (sha256hex (concat chunks))));
                  RetClose None]), σ', evs) /\
    names σ' = names σ /\
    Closed w' = true.
Proof.
  intros Hcalm Hfree Hne. destruct σ as [nm st fl]. cbn [faults names] in *.
  subst fl. rewrite (session_calm filename suffix nm st Hfree). cbv zeta.
  rewrite do_calls_cons, do_call_Accept. cbv zeta.
  rewrite (Accept_fed filename suffix st) by apply lookup_insert_eq.
  assert (Hneq : String.eqb (sha256hex (concat chunks)) (Base filename)
                 = false).
  { apply String.eqb_neq. congruence. }
  rewrite Hneq. cbn [negb]. rewrite !ret_of_mk, !world_of_mk. cbn [fst snd].
  rewrite do_calls_cons. cbv zeta.
  rewrite do_calls_nil, do_call_Close, Close_fed by apply lookup_insert_eq.
  unfold ret_of, world_of, events_of. cbn [fst snd].
  eexists _, _, _. split; [reflexivity|].
  split; [|reflexivity].
  cbn [names]. apply delete_insert_id. exact Hfree.
Qed.

Lemma mismatch_session_publishes_nothing_witness :
  Base bad_dest <> sha256hex (concat [SUP]) /\
  exists w' σ' evs,
    session bad_dest DefaultSuffix
            (map CallWrite [SUP] ++ [CallAccept; CallClose])
            (empty_world []) =
      (Some (w', [RetWrite 3 None;
                  RetAccept false (Some (mismatch badOid supOid));
                  RetClose None]), σ', evs) /\
    names σ' = ∅.
Proof.
  assert (Hne : Base bad_dest <> sha256hex (concat [SUP]))
    by (vm_compute; discriminate).
  split; [exact Hne|].
  destruct (mismatch_session_publishes_nothing bad_dest DefaultSuffix [SUP]
              (empty_world []) eq_refl eq_refl Hne)
    as (w' & σ' & evs & Hrun & Hnames & _).
  exists w', σ', evs. split; [|exact Hnames].
  refine (eq_trans Hrun _). vm_compute. reflexivity.
Defined.

(** X11.  With the empty suffix the staging path is the destination, and
    an accepted session loses the content.  In a calm world with the
    destination free, [NewWithSuffix(filename, "")] succeeds, the writes
    succeed, and [Accept], although the digest matches, finds its own
    staging file at the destination, takes it for a duplicate and removes
    it: it returns [(false, nil)] and afterwards nothing is at the
    destination. *)
Theorem empty_suffix_discards_content filename chunks σ :
  faults σ = [] ->
  names σ !! filename = None ->
  Base filename = sha256hex (concat chunks) ->
  exists w' σ' evs,
    store_chunks filename "" chunks σ =
      (Some (w', map (fun p => RetWrite (length p) None) chunks ++
                 [RetAccept false None]), σ', evs) /\
    names σ' !! filename = None /\
    names σ' = names σ /\
    Closed w' = true.
Proof.
  intros Hcalm Hfree Hoid. destruct σ as [nm st fl]. cbn [faults names] in *.
  subst fl.
  assert (Hfree' : nm !! (filename +:+ "") = None)
    by (rewrite append_empty_r; exact Hfree).
  unfold store_chunks.
  rewrite (session_calm filename "" nm st Hfree'). cbv zeta.
  rewrite do_calls_cons. cbv zeta. rewrite do_calls_nil, do_call_Accept.
  rewrite (Accept_fed filename "" st) by apply lookup_insert_eq.
  rewrite Hoid, String.eqb_refl. cbn [negb].
  rewrite append_empty_r, lookup_insert_eq.
  unfold ret_of, world_of, events_of. cbn [fst snd names].
  rewrite (delete_insert_id nm filename _ Hfree).
  eexists _, _, _. split; [reflexivity|].
  split; [exact Hfree|]. split; reflexivity.
Qed.

Lemma empty_suffix_discards_content_witness :
  Base dest = sha256hex (concat [bytes_of "S"; bytes_of "UP"]) /\
  exists w' σ' evs,
    store_chunks dest "" [bytes_of "S"; bytes_of "UP"] (empty_world []) =
      (Some (w', [RetWrite 1 None; RetWrite 2 None; RetAccept false None]),
       σ', evs) /\
    names σ' !! dest = None.
Proof.
  assert (Hoid : Base dest = sha256hex (concat [bytes_of "S"; bytes_of "UP"]))
    by (vm_compute; reflexivity).
  split; [exact Hoid|].
  destruct (empty_suffix_discards_content dest [bytes_of "S"; bytes_of "UP"]
              (empty_world []) eq_refl eq_refl Hoid)
    as (w' & σ' & evs & Hrun & Hgone & _).
  exists w', σ', evs. split; [exact Hrun | exact Hgone].
Defined.



(* ===================================================================== *)
(** ** Beyond the claims: the identifier                                  *)
(* ===================================================================== *)

Section BaseName.

Lemma list_ascii_of_append (a b : string) :
  list_ascii_of_string (a +:+ b) =
    list_ascii_of_string a ++ list_ascii_of_string b.
Proof.
  induction a as [|c a IH]; [reflexivity|].
  change (c :: list_ascii_of_string (a +:+ b) =
          c :: (list_ascii_of_string a ++ list_ascii_of_string b)).
  rewrite IH. reflexivity.
Qed.

Lemma until_sep_app l r :
  Forall (fun c => IsPathSeparator c = false) l ->
  until_sep (l ++ Separator :: r) = l.
Proof.
  induction 1 as [|c l Hc _ IH]; cbn [app until_sep].
  - reflexivity.
  - rewrite Hc, IH. reflexivity.
Qed.

Lemma until_sep_all l :
  Forall (fun c => IsPathSeparator c = false) l -> until_sep l = l.
Proof.
  induction 1 as [|c l Hc _ IH]; cbn [until_sep]; [reflexivity|].
  rewrite Hc, IH. reflexivity.
Qed.

Lemma drop_seps_head c l :
  IsPathSeparator c = false -> drop_seps (c :: l) = c :: l.
Proof. intros Hc. cbn [drop_seps]. rewrite Hc. reflexivity. Qed.

(** [Base] of a path that ends in the element [name], after a separator or
    on its own. *)
Lemma Base_of_element (front : list ascii) (path name : string) :
  element name ->
  list_ascii_of_string path = front ++ list_ascii_of_string name ->
  (front = [] \/ exists front', front = front' ++ [Separator]) ->
  Base path = name.
Proof.
  intros [Hne Hnosep] Hpath Hfront. unfold Base.
  assert (Hl : list_ascii_of_string name <> []).
  { intros Hl. apply Hne.
    rewrite <- (string_of_list_ascii_of_string name), Hl. reflexivity. }
  assert (Hpne : String.eqb path "" = false).
  { apply String.eqb_neq. intros ->. cbn in Hpath.
    destruct front; [cbn in Hpath; congruence | discriminate]. }
  rewrite Hpne, Hpath, rev_app_distr.
  set (l := list_ascii_of_string name) in *.
  assert (Hrev : Forall (fun c => IsPathSeparator c = false) (rev l)).
  { apply List.Forall_rev. exact Hnosep. }
  destruct (rev l) as [|c0 rl] eqn:Hrl.
  { exfalso. apply Hl. rewrite <- (rev_involutive l), Hrl. reflexivity. }
  assert (Hc0 : IsPathSeparator c0 = false) by (inversion Hrev; assumption).
  cbn [app]. rewrite drop_seps_head by exact Hc0.
  assert (Huntil : until_sep (c0 :: rl ++ rev front) = c0 :: rl).
  { destruct Hfront as [->|[front' ->]].
    - cbn [rev]. rewrite app_nil_r. apply until_sep_all. exact Hrev.
    - rewrite rev_app_distr. cbn [rev app].
      change (until_sep ((c0 :: rl) ++ Separator :: rev front') = c0 :: rl).
      apply until_sep_app. exact Hrev. }
  rewrite Huntil, <- Hrl, rev_involutive.
  unfold l. rewrite string_of_list_ascii_of_string.
  apply String.eqb_neq in Hne. rewrite Hne. reflexivity.
Qed.

End BaseName.

(** X13.  The expected identifier is the last element of the path.  For a
    destination [dir/name], or just [name], where [name] is not empty and
    has no separator, the writer [NewWithSuffix] returns has [Oid = name],
    keeps the destination as given and has it followed by the suffix as
    its staging path. *)
Theorem oid_is_last_element dir name suffix σ1 σ2 w1 w2 :
  element name ->
  (ret_of (NewWithSuffix (dir +:+ "/" +:+ name) suffix σ1)).1 = Some w1 ->
  (ret_of (NewWithSuffix name suffix σ2)).1 = Some w2 ->
  (Oid w1 = name /\ filename w1 = dir +:+ "/" +:+ name /\
   tempFilename w1 = (dir +:+ "/" +:+ name) +:+ suffix) /\
  (Oid w2 = name /\ filename w2 = name /\ tempFilename w2 = name +:+ suffix).
Proof.
  intros Hel H1 H2.
  destruct (NewWithSuffix_bound _ _ _ _ H1) as (_ & Ho1 & Hf1 & Ht1 & _).
  destruct (NewWithSuffix_bound _ _ _ _ H2) as (_ & Ho2 & Hf2 & Ht2 & _).
  split; (split; [|split; assumption]).
  - rewrite Ho1.
    apply (Base_of_element (list_ascii_of_string dir ++ [Separator]));
      [exact Hel | | right; eauto].
    rewrite !list_ascii_of_append, <- app_assoc. reflexivity.
  - rewrite Ho2. apply (Base_of_element []); [exact Hel | reflexivity | left; reflexivity].
Qed.

Lemma oid_is_last_element_witness :
  element supOid /\
  exists w1 w2,
    (ret_of (NewWithSuffix ("File" +:+ "/" +:+ supOid) DefaultSuffix
                           (empty_world []))).1 = Some w1 /\
    (ret_of (NewWithSuffix supOid DefaultSuffix (empty_world []))).1
      = Some w2 /\
    Oid w1 = supOid /\ Oid w2 = supOid.
Proof.
  assert (Hel : element supOid).
  { split; [discriminate|]. vm_compute.
    repeat (constructor; [reflexivity|]). constructor. }
  split; [exact Hel|].
  assert (H1 : exists w1,
    (ret_of (NewWithSuffix ("File" +:+ "/" +:+ supOid) DefaultSuffix
                           (empty_world []))).1 = Some w1)
    by (vm_compute; eauto).
  assert (H2 : exists w2,
    (ret_of (NewWithSuffix supOid DefaultSuffix (empty_world []))).1
      = Some w2) by (vm_compute; eauto).
  destruct H1 as [w1 H1]. destruct H2 as [w2 H2].
  exists w1, w2. split; [exact H1|]. split; [exact H2|].
  destruct (oid_is_last_element "File" supOid DefaultSuffix
              (empty_world []) (empty_world []) w1 w2 Hel H1 H2)
    as [(Ho1 & _) (Ho2 & _)].
  split; [exact Ho1 | exact Ho2].
Defined.

Section DigestLength.
Import Sha256.
Local Open Scope nat_scope.

Lemma compress_length hs p : length hs = 8 -> length (compress hs p) = 8.
Proof.
  intros Hh. unfold compress.
  destruct (fold_left round (combine _K (schedule p)) (regs_of hs))
    as [[[[[[[a b] c] d] e] f] g] k].
  rewrite length_map, length_combine, Hh. reflexivity.
Qed.

Lemma block_loop_length fuel : forall hs p,
  length hs = 8 -> length (block_loop fuel hs p) = 8.
Proof.
  induction fuel as [|fuel IH]; intros hs p Hh; [exact Hh|].
  rewrite Sha256Facts.block_loop_S.
  destruct (chunk <=? length p); [|exact Hh].
  apply IH, compress_length, Hh.
Qed.

Lemma Write_h_length d p :
  wf d -> length (h d) = 8 -> length (h (Write d p)) = 8.
Proof.
  intros Hwf Hh. rewrite Sha256Facts.Write_spec by exact Hwf.
  apply block_loop_length, Hh.
Qed.

Lemma be32_concat_length hs :
  length (concat (map be32 hs)) = 4 * length hs.
Proof.
  induction hs as [|v hs IH]; [reflexivity|].
  cbn [map concat]. rewrite length_app, IH. cbn [be32 length]. lia.
Qed.

(** A SHA-256 sum has 32 bytes. *)
Lemma Sum_length d : wf d -> length (h d) = 8 -> length (Sum d) = 32.
Proof.
  intros Hwf Hh. unfold Sum, checkSum. rewrite be32_concat_length.
  rewrite Write_h_length; [reflexivity | |].
  - apply Sha256Facts.Write_wf, Hwf.
  - apply Write_h_length; assumption.
Qed.

Lemma EncodeToString_length bs :
  String.length (Hex.EncodeToString bs) = 2 * length bs.
Proof.
  induction bs as [|b bs IH]; [reflexivity|].
  cbn [Hex.EncodeToString String.length length]. rewrite IH. lia.
Qed.

End DigestLength.

(** X14.  The signature has 64 characters, so only a 64-character
    identifier can be accepted.  For an open writer whose digest has been
    fed from a fresh one, [Accept] on a writer whose [Oid] is not 64
    characters long returns the mismatch error, whatever was written, makes
    no system call and leaves the writer open. *)
Theorem accept_needs_64_characters w f σ acc :
  tempFile w = Some f ->
  hasher w = Sha256.Write Sha256.New acc ->
  String.length (Oid w) <> 64%nat ->
  String.length (sig w) = 64%nat /\
  Accept w σ = ((w, (false, Some (mismatch (Oid w) (sig w)))), σ, []).
Proof.
  intros Hf Hh Hlen.
  assert (Hsig : String.length (sig w) = 64%nat).
  { unfold sig. rewrite EncodeToString_length, Hh, Sum_length; [reflexivity | |].
    - apply Sha256Facts.Write_wf, Sha256Facts.New_wf.
    - apply Write_h_length; [apply Sha256Facts.New_wf | reflexivity]. }
  split; [exact Hsig|].
  rewrite (Accept_open w f σ Hf).
  assert (Hne : String.eqb (sig w) (Oid w) = false).
  { apply String.eqb_neq. intros Heq. apply Hlen. rewrite <- Heq. exact Hsig. }
  rewrite Hne. reflexivity.
Qed.

Lemma accept_needs_64_characters_witness :
  String.length (Oid short_oid_writer) <> 64%nat /\
  (ret_of (Accept short_oid_writer (empty_world []))).2 =
    (false, Some (mismatch "SUP" supOid)).
Proof.
  assert (Hlen : String.length (Oid short_oid_writer) <> 64%nat)
    by (vm_compute; discriminate).
  split; [exact Hlen|].
  destruct (accept_needs_64_characters short_oid_writer
              (mkOsFile "File/SUP-temp" 0%nat false) (empty_world []) SUP
              eq_refl eq_refl Hlen) as [_ Hacc].
  rewrite Hacc. vm_compute. reflexivity.
Defined.

(* ===================================================================== *)
(** ** Beyond the claims: what a writer keeps                             *)
(* ===================================================================== *)

(** X15.  The identity of a writer is fixed at construction.  Over any
    script of calls, whatever fails, [Oid], the destination path and the
    staging path of the writer stay the same, and while the writer is open
    its handle is the file opened at the staging path. *)
Theorem calls_keep_identity w cs : forall σ,
  bound w ->
  same_paths w (ret_of (do_calls w cs σ)).1 /\
  bound (ret_of (do_calls w cs σ)).1 /\
  same_handle w (ret_of (do_calls w cs σ)).1.
Proof.
  revert w. induction cs as [|c cs IH]; intros w σ Hb.
  - rewrite do_calls_nil. unfold ret_of. cbn [fst snd].
    split; [repeat split|]. split; [exact Hb|].
    intros f Hf. eauto.
  - rewrite do_calls_cons. cbv zeta. rewrite ret_of_mk. cbn [fst].
    destruct (do_call_keeps_paths w c σ Hb) as [(Ho & Hfn & Htmp) Hb1].
    pose proof (do_call_same_handle w c σ) as Hsame.
    destruct (IH (ret_of (do_call w c σ)).1 (world_of (do_call w c σ)) Hb1)
      as ((Ho2 & Hfn2 & Htmp2) & Hb2 & Hsame2).
    split; [|split; [exact Hb2|]].
    + unfold same_paths. rewrite Ho2, Hfn2, Htmp2. repeat split; assumption.
    + intros f2 Hf2. destruct (Hsame2 f2 Hf2) as (f1 & Hf1 & Hn1 & Hi1).
      destruct (Hsame f1 Hf1) as (f & Hf & Hn & Hi).
      exists f. split; [exact Hf|]. split; congruence.
Qed.

Lemma calls_keep_identity_witness :
  bound bad_writer /\
  Oid (ret_of (do_calls bad_writer [CallWrite SUP; CallAccept; CallClose]
                        (bad_world [fails ENOSPC; ok; fails EIO]))).1
    = badOid.
Proof.
  assert (Hb : bound bad_writer) by (intros f [= <-]; reflexivity).
  split; [exact Hb|].
  destruct (calls_keep_identity bad_writer
              [CallWrite SUP; CallAccept; CallClose]
              (bad_world [fails ENOSPC; ok; fails EIO]) Hb)
    as ((Ho & _) & _).
  exact Ho.
Defined.

Section AppendOnly.

(** One call only ever appends to the inode of the handle. *)
Lemma do_call_appends w c σ j acc :
  (forall f, tempFile w = Some f -> inode f = j) ->
  store σ !! j = Some acc ->
  exists more, store (world_of (do_call w c σ)) !! j = Some (acc ++ more).
Proof.
  intros Hj Hst. destruct (tempFile w) as [f|] eqn:Hf.
  - specialize (Hj f eq_refl). subst j. destruct c as [p| |].
    + rewrite do_call_Write, (Write_open w f p σ Hf).
      destruct (closed f); unfold world_of; cbn [fst snd store].
      * exists []. rewrite app_nil_r. exact Hst.
      * eexists. rewrite lookup_alter_eq, Hst. reflexivity.
    + exists []. rewrite app_nil_r.
      rewrite do_call_Accept, (Accept_open w f σ Hf).
      destruct (negb _); [exact Hst|].
      destruct (stat_err _ _); unfold world_of; cbn [fst snd].
      * rewrite rename_world_store, after_close_store. exact Hst.
      * rewrite cleanup_world_store. exact Hst.
    + exists []. rewrite app_nil_r.
      rewrite do_call_Close, (Close_open w f σ Hf).
      unfold world_of; cbn [fst snd].
      rewrite cleanup_world_store. exact Hst.
  - exists []. rewrite app_nil_r, (do_call_closed w c σ Hf). exact Hst.
Qed.

End AppendOnly.

(** X16.  The staging file is append-only.  Over any script of calls on a
    writer, whatever fails, the bytes behind its handle are the bytes that
    were there before followed by further bytes: nothing written is ever
    overwritten or cut off, not by a failed write, not by [Accept] and not
    by [Close] (which removes the name, not the bytes). *)
Theorem staging_is_append_only w cs : forall σ f acc,
  tempFile w = Some f ->
  store σ !! inode f = Some acc ->
  exists more,
    store (world_of (do_calls w cs σ)) !! inode f = Some (acc ++ more).
Proof.
  assert (Hgen : forall cs w σ j acc,
            (forall f, tempFile w = Some f -> inode f = j) ->
            store σ !! j = Some acc ->
            exists more,
              store (world_of (do_calls w cs σ)) !! j = Some (acc ++ more)).
  { clear. induction cs as [|c cs IH]; intros w σ j acc Hj Hst.
    - exists []. rewrite app_nil_r. exact Hst.
    - rewrite do_calls_cons. cbv zeta. rewrite world_of_mk.
      destruct (do_call_appends w c σ j acc Hj Hst) as [m1 Hm1].
      pose proof (do_call_same_handle w c σ) as Hsame.
      destruct (IH (ret_of (do_call w c σ)).1 (world_of (do_call w c σ))
                   j (acc ++ m1)) as [m2 Hm2].
      + intros f1 Hf1. destruct (Hsame f1 Hf1) as (f & Hf & _ & Hi).
        rewrite Hi. apply Hj, Hf.
      + exact Hm1.
      + exists (m1 ++ m2). rewrite Hm2, app_assoc. reflexivity. }
  intros σ f acc Hf Hst. apply Hgen; [|exact Hst].
  intros f' Hf'. congruence.
Qed.

Lemma staging_is_append_only_witness :
  tempFile sup_writer = Some (mkOsFile staging 0%nat false) /\
  exists more,
    store (world_of (do_calls sup_writer
                              [CallWrite SUP; CallClose; CallWrite SUP]
                              (sup_world [short EIO 2; ok; fails EACCES])))
      !! 0%nat = Some (SUP ++ more).
Proof.
  split; [reflexivity|].
  apply (staging_is_append_only sup_writer
           [CallWrite SUP; CallClose; CallWrite SUP]
           (sup_world [short EIO 2; ok; fails EACCES])
           (mkOsFile staging 0%nat false) SUP); reflexivity.
Defined.

(** X17.  After a [Close] that failed, the writer is open on a closed
    handle.  A [Write] then returns [(0, file already closed)], an error
    of the [os] package and not [AlreadyClosed]; it makes no system call
    and changes nothing in the world, but it still feeds its bytes to the
    digest. *)
Theorem write_after_failed_close w f σ p σ2 :
  tempFile w = Some f ->
  (ret_of (Close w σ)).2 <> None ->
  let w1 := (ret_of (Close w σ)).1 in
  Closed w1 = false /\
  ret_of (Write w1 p σ2) =
    (set_hasher w1 (Sha256.Write (hasher w) p),
     (0%nat, Some (Sys ErrClosed))) /\
  world_of (Write w1 p σ2) = σ2.
Proof.
  intros Hf. cbv zeta. rewrite (Close_open w f σ Hf).
  rewrite ret_of_mk. cbn [fst snd].
  destruct (cleanup_err f σ) as [e|]; [intros _ | congruence].
  rewrite (Write_open
             (set_tempFile w (Some (mkOsFile (name f) (inode f) true)))
             (mkOsFile (name f) (inode f) true) p σ2 eq_refl).
  cbn [closed]. rewrite ret_of_mk, world_of_mk.
  split; [reflexivity|]. split; reflexivity.
Qed.

Lemma write_after_failed_close_witness :
  (ret_of (Close sup_writer (sup_world [ok; fails EACCES]))).2 <> None /\
  (ret_of (Write (ret_of (Close sup_writer (sup_world [ok; fails EACCES]))).1
                 SUP (sup_world []))).2 = (0%nat, Some (Sys ErrClosed)).
Proof.
  assert (Herr : (ret_of (Close sup_writer
                            (sup_world [ok; fails EACCES]))).2 <> None)
    by (vm_compute; discriminate).
  split; [exact Herr|].
  destruct (write_after_failed_close sup_writer
              (mkOsFile staging 0%nat false)
              (sup_world [ok; fails EACCES]) SUP (sup_world [])
              eq_refl Herr) as (_ & Hret & _).
  rewrite Hret. reflexivity.
Defined.
